(** * A shallow embedding of the unified-diff engine of [lib/diff]

    The TypeScript module exports three functions over a raw diff text:
    [splitDiffByFiles] (the file segmenter), [parseDiff] (the hunk and line
    parser) and [summarizeDiff] (the summarizer).  This development embeds
    them and settles the properties the specification states about them.

    Modelling choices.
    - A JavaScript string is a sequence of UTF-16 code units: [list N].
      [startsWith], [substring], [split], [length] and the regular
      expressions of the source all work on code units.
    - A JavaScript number is a double.  The numbers of a chunk and of its
      lines come from [parseInt] on a run of decimal digits, from the
      literal 1 and from [++]: [number] keeps such a double by its integer
      value, with [Infinity] and [NaN] beside, and [to_number] rounds an
      integer to the nearest double.  The counters of [summarizeDiff] and
      the lengths and indices count lines and code units of the input,
      which stay far below [2^53], and are kept in [Z] and [nat].
    - Evaluation that would raise a [TypeError] in JavaScript (reading a
      property of [undefined] or [null]) is [None] in the [option] monad;
      the [while] loop around [RegExp.exec] takes fuel and is [None] when
      the fuel is used up.
    - The two regular expressions are written with backtracking matcher
      combinators in continuation-passing style, one combinator per regex
      construct.
    - [parseDiff] keeps the chunk objects in a store, since the source
      mutates a chunk through the alias [currentChunk] after the chunk has
      been pushed to its file. *)

From Stdlib Require Import ZArith NArith Ascii String.
From stdpp Require Import base tactics option numbers list.

Local Open Scope nat_scope.

(** ** Strings as code-unit sequences *)

Abbreviation jsstring := (list N).

Definition lit (s : string) : jsstring :=
  (λ a, N_of_ascii a) <$> list_ascii_of_string s.
Arguments lit _%_string.

Definition LF : N := 10.
Definition CR : N := 13.
Definition LS : N := 8232.
Definition PS : N := 8233.

(** [String.prototype.startsWith] *)
Fixpoint startsWith (s p : jsstring) {struct p} : bool :=
  match p with
  | [] => true
  | c :: p' =>
      match s with
      | [] => false
      | d :: s' => if N.eqb c d then startsWith s' p' else false
      end
  end.

(** [String.prototype.substring(start, end)]: both arguments are clamped to
    the length and swapped when [start > end]. *)
Definition substring (s : jsstring) (a b : nat) : jsstring :=
  let a' := a `min` length s in
  let b' := b `min` length s in
  take (a' `max` b' - a' `min` b') (drop (a' `min` b') s).

(** [String.prototype.substring(start)] *)
Definition substring_from (s : jsstring) (a : nat) : jsstring := drop a s.

(** [String.prototype.split('\n')]: the pieces between line feeds; the
    empty string gives one empty piece. *)
Fixpoint split_lines_aux (cur : jsstring) (s : jsstring) : list jsstring :=
  match s with
  | [] => [cur]
  | c :: s' =>
      if N.eqb c LF then cur :: split_lines_aux [] s'
      else split_lines_aux (cur ++ [c]) s'
  end.

Definition split_lines (s : jsstring) : list jsstring := split_lines_aux [] s.

(** ** Regular-expression constructs as backtracking matchers *)

(** [.] without the [s] flag matches any code unit but a line terminator. *)
Definition is_line_terminator (c : N) : bool :=
  N.eqb c LF || N.eqb c CR || N.eqb c LS || N.eqb c PS.

Definition dot (c : N) : bool := negb (is_line_terminator c).

(** [\d] without the [u] flag is [0-9]. *)
Definition is_digit (c : N) : bool := N.leb 48 c && N.leb c 57.

Section Backtracking.
Context {R : Type}.

(** A literal: all its code units, in order. *)
Fixpoint re_lit (l : jsstring) (s : jsstring) (k : jsstring → option R)
  : option R :=
  match l with
  | [] => k s
  | c :: l' =>
      match s with
      | [] => None
      | d :: s' => if N.eqb c d then re_lit l' s' k else None
      end
  end.

(** [(p*?)]: the shortest run first, one more code unit after each
    failure of the continuation. *)
Fixpoint re_lazy (p : N → bool) (acc : jsstring) (s : jsstring)
    (k : jsstring → jsstring → option R) : option R :=
  match k acc s with
  | Some r => Some r
  | None =>
      match s with
      | [] => None
      | c :: s' => if p c then re_lazy p (acc ++ [c]) s' k else None
      end
  end.

(** [(p* )]: the longest run first, one code unit less after each failure
    of the continuation. *)
Fixpoint re_greedy (p : N → bool) (acc : jsstring) (s : jsstring)
    (k : jsstring → jsstring → option R) : option R :=
  match s with
  | [] => k acc s
  | c :: s' =>
      if p c then
        match re_greedy p (acc ++ [c]) s' k with
        | Some r => Some r
        | None => k acc s
        end
      else k acc s
  end.

(** [(p+)] *)
Definition re_plus (p : N → bool) (s : jsstring)
    (k : jsstring → jsstring → option R) : option R :=
  match s with
  | [] => None
  | c :: s' => if p c then re_greedy p [c] s' k else None
  end.

(** [c?] *)
Definition re_opt (c : N) (s : jsstring) (k : jsstring → option R)
  : option R :=
  match s with
  | [] => k s
  | d :: s' =>
      if N.eqb c d then
        match k s' with
        | Some r => Some r
        | None => k s
        end
      else k s
  end.

(** An unanchored pattern is tried at every start position, leftmost
    first; [i] is the position of [s] in the whole subject. *)
Fixpoint re_search (at_pos : jsstring → option R) (s : jsstring) (i : nat)
  : option (nat * R) :=
  match at_pos s with
  | Some r => Some (i, r)
  | None =>
      match s with
      | [] => None
      | _ :: s' => re_search at_pos s' (S i)
      end
  end.
End Backtracking.

(** ** The file segmenter: [splitDiffByFiles] *)

(** [/diff --git a\/(.*?) b\/(.*?)\n/] at one start position: the two
    captures and the text left after the match. *)
Definition filePattern_at (s : jsstring)
  : option (jsstring * jsstring * jsstring) :=
  re_lit (lit "diff --git a/") s (λ s1,
  re_lazy dot [] s1 (λ g1 s2,
  re_lit (lit " b/") s2 (λ s3,
  re_lazy dot [] s3 (λ g2 s4,
  re_lit [LF] s4 (λ rest, Some (g1, g2, rest)))))).

(** The array [RegExp.exec] returns: the match and the captures, with the
    [index] property. *)
Record RegExpExecArray := {
  m_index : nat;
  m0 : jsstring;
  m1 : jsstring;
  m2 : jsstring
}.

(** [filePattern.exec(diffStr)] for the global pattern with the given
    [lastIndex]: the result ([None] for [null]) and the new [lastIndex]. *)
Definition exec (diffStr : jsstring) (lastIndex : nat)
  : option RegExpExecArray * nat :=
  if bool_decide (length diffStr < lastIndex) then (None, 0)
  else
    match re_search filePattern_at (drop lastIndex diffStr) lastIndex with
    | None => (None, 0)
    | Some (i, (g1, g2, rest)) =>
        let e := length diffStr - length rest in
        (Some {| m_index := i; m0 := substring diffStr i e;
                 m1 := g1; m2 := g2 |}, e)
    end.

Record FileHeader := {
  index : nat;
  fileName : jsstring;
  match_ : RegExpExecArray
}.

(** [while ((match = filePattern.exec(diffStr)) !== null) fileHeaders.push(..)] *)
Fixpoint collect_headers (fuel : nat) (diffStr : jsstring) (lastIndex : nat)
    (fileHeaders : list FileHeader) : option (list FileHeader) :=
  match fuel with
  | 0 => None
  | S fuel' =>
      match exec diffStr lastIndex with
      | (None, _) => Some fileHeaders
      | (Some m, lastIndex') =>
          collect_headers fuel' diffStr lastIndex'
            (fileHeaders ++
               [{| index := m_index m; fileName := m1 m; match_ := m |}])
      end
  end.

(** *** The returned object

    [Record<string, string>] is an ordinary object.  Its own properties are
    kept in creation order; writing an existing key replaces the value in
    place.  The key [__proto__] is the accessor inherited from
    [Object.prototype], whose setter ignores a string, so that write
    creates no property.  Enumeration ([Object.entries], [Object.keys],
    [for-in]) lists the array-index keys first, in ascending numeric order,
    and the other keys in creation order. *)

Abbreviation jsobject := (list (jsstring * jsstring)).

Definition key_eqb (a b : jsstring) : bool := bool_decide (a = b).

Fixpoint obj_replace (k v : jsstring) (o : jsobject) : option jsobject :=
  match o with
  | [] => None
  | (k', v') :: o' =>
      if key_eqb k k' then Some ((k', v) :: o')
      else cons (k', v') <$> obj_replace k v o'
  end.

Definition obj_set (k v : jsstring) (o : jsobject) : jsobject :=
  if key_eqb k (lit "__proto__") then o
  else
    match obj_replace k v o with
    | Some o' => o'
    | None => o ++ [(k, v)]
    end.

(** The value of a string of decimal digits. *)
Definition digits_value (ds : jsstring) : N :=
  fold_left (λ acc c, (10 * acc + (c - 48))%N) ds 0%N.

(** The integer a string of decimal digits writes. *)
Definition decimal (ds : jsstring) : Z := Z.of_N (digits_value ds).

(** A key is an array index when it is the canonical decimal form of an
    integer from 0 to [2^32 - 2]. *)
Definition is_array_index (k : jsstring) : bool :=
  match k with
  | [] => false
  | c :: k' =>
      forallb is_digit k
      && (negb (N.eqb c 48) || bool_decide (k' = []))
      && bool_decide (length k ≤ 10)
      && N.leb (digits_value k) 4294967294
  end.

Fixpoint insert_by_index (e : jsstring * jsstring) (l : jsobject) : jsobject :=
  match l with
  | [] => [e]
  | e' :: l' =>
      if N.leb (digits_value e.1) (digits_value e'.1) then e :: e' :: l'
      else e' :: insert_by_index e l'
  end.

Definition sort_by_index (l : jsobject) : jsobject :=
  foldr insert_by_index [] l.

(** [Object.entries] *)
Definition obj_entries (o : jsobject) : jsobject :=
  sort_by_index (filter (λ e, is_array_index e.1 = true) o)
  ++ filter (λ e, is_array_index e.1 ≠ true) o.

(** [for (let i = 0; i < n; i++) body]: the body runs at [i], [i+1], ...,
    [n] times. *)
Fixpoint for_range {A : Type} (n i : nat) (body : nat → A → option A) (a : A)
  : option A :=
  match n with
  | 0 => Some a
  | S n' => a' ← body i a; for_range n' (S i) body a'
  end.

(** One turn of the loop over [fileHeaders]; reading a property of a
    missing element fails. *)
Definition split_body (diffStr : jsstring) (fileHeaders : list FileHeader)
    (i : nat) (fileDiffs : jsobject) : option jsobject :=
  currentHeader ← fileHeaders !! i;
  endPos ← (if bool_decide (i < length fileHeaders - 1)
            then index <$> fileHeaders !! (i + 1)
            else Some (length diffStr));
  let fileDiff := substring diffStr (index currentHeader) endPos in
  Some (obj_set (fileName currentHeader) fileDiff fileDiffs).

Definition fileHeaders_of (diffStr : jsstring) : option (list FileHeader) :=
  collect_headers (S (length diffStr)) diffStr 0 [].

Definition splitDiffByFiles (diffStr : jsstring) : option jsobject :=
  fileHeaders ← fileHeaders_of diffStr;
  for_range (length fileHeaders) 0 (split_body diffStr fileHeaders) [].

Definition nl : jsstring := [LF].


(** ** The hunk and line parser: [parseDiff] *)

(** The numbers the parser stores: doubles whose value is an integer that
    is not negative, kept by that value, [Infinity] and [NaN]. *)
Inductive number := Finite (z : Z) | Infinity | NaN.

(** The largest integer up to which every integer is a double. *)
Definition max_exact : Z := 2 ^ 53.

(** The double nearest to an integer [n] that is not negative, as
    IEEE 754 rounds: [n] itself below [2^53]; from there on [n] is cut to
    a significand [q] of 53 bits with [e] bits dropped, [q] goes up when
    the dropped bits are more than half, or half with [q] odd (ties to
    even), and the value is [Infinity] when it reaches [2^1024]. *)
Definition to_number (n : Z) : number :=
  if (n <? max_exact)%Z then Finite n
  else
    let e := (Z.log2 n - 52)%Z in
    let q := (n / 2 ^ e)%Z in
    let r := (n mod 2 ^ e)%Z in
    let half := (2 ^ (e - 1))%Z in
    let q' :=
      if (r <? half)%Z then q
      else if (half <? r)%Z then (q + 1)%Z
      else if Z.even q then q else (q + 1)%Z in
    let m := (q' * 2 ^ e)%Z in
    if (m <? 2 ^ 1024)%Z then Finite m else Infinity.

(** The value [x++] leaves in [x]: [x + 1] in double arithmetic, the double
    nearest to the sum. *)
Definition increment (x : number) : number :=
  match x with
  | Finite z => to_number (z + 1)
  | Infinity => Infinity
  | NaN => NaN
  end.

Inductive LineType := added | removed | context.

Record DiffLine := {
  type : LineType;
  content : jsstring;
  oldLineNumber : option number;
  newLineNumber : option number
}.

Record DiffChunk := {
  oldStart : number;
  oldLines : number;
  newStart : number;
  newLines : number;
  lines : list DiffLine
}.

(** [FileDiff], over the representation [C] of the elements of [chunks]:
    references into the chunk store while parsing, chunks in the result. *)
Record FileDiffOf (C : Type) := {
  oldFile : jsstring;
  newFile : jsstring;
  isDeleted : bool;
  isNew : bool;
  chunks : list C
}.
Arguments oldFile {C}.
Arguments newFile {C}.
Arguments isDeleted {C}.
Arguments isNew {C}.
Arguments chunks {C}.

Abbreviation FileDiff := (FileDiffOf DiffChunk).

Definition comma : N := 44.

(** [(\d+),?(\d* )], the two numbers of one side of a hunk header. *)
Definition re_range {R : Type} (s : jsstring)
    (k : jsstring → jsstring → jsstring → option R) : option R :=
  re_plus is_digit s (λ g1 s2,
  re_opt comma s2 (λ s3,
  re_greedy is_digit [] s3 (λ g2 s4, k g1 g2 s4))).

(** The pattern of the hunk header, [@@ -(\d+),?(\d* ) \+(\d+),?(\d* ) @@]
    (the source has no blank before the closing parentheses), at one
    start position, in three pieces read from the right: the closing [ @@]
    that returns the four captures, the new side from [ \+] on, and the
    whole pattern. *)
Definition hunk_closing (g1 g2 g3 g4 : jsstring) (s8 : jsstring)
  : option (jsstring * jsstring * jsstring * jsstring) :=
  re_lit (lit " @@") s8 (λ _, Some (g1, g2, g3, g4)).

Definition hunk_new_side (g1 g2 : jsstring) (s4 : jsstring)
  : option (jsstring * jsstring * jsstring * jsstring) :=
  re_lit (lit " +") s4 (λ s5, re_range s5 (hunk_closing g1 g2)).

Definition hunkPattern_at (s : jsstring)
  : option (jsstring * jsstring * jsstring * jsstring) :=
  re_lit (lit "@@ -") s (λ s1, re_range s1 hunk_new_side).

(** [line.match(pattern)] for the pattern without the [g] flag: the
    captures of the leftmost match. *)
Definition hunk_match (line : jsstring)
  : option (jsstring * jsstring * jsstring * jsstring) :=
  snd <$> re_search hunkPattern_at line 0.

(** [parseInt] on a string of decimal digits, the only arguments the
    parser passes (the captures of the digit runs of the pattern): the
    double nearest to the integer the digits write, and [NaN] for the
    empty string.  (ECMAScript allows an implementation to put zeros for
    the digits after the 20th significant one before it rounds; V8 rounds
    the integer itself, as here.  The two agree up to [2^53].) *)
Definition parseInt (ds : jsstring) : number :=
  match ds with
  | [] => NaN
  | _ => to_number (decimal ds)
  end.

(** A nonempty string is truthy. *)
Definition truthy (s : jsstring) : bool :=
  match s with [] => false | _ => true end.

Definition new_chunk (g : jsstring * jsstring * jsstring * jsstring)
  : DiffChunk :=
  let '(g1, g2, g3, g4) := g in
  {| oldStart := parseInt g1;
     oldLines := if truthy g2 then parseInt g2 else Finite 1;
     newStart := parseInt g3;
     newLines := if truthy g4 then parseInt g4 else Finite 1;
     lines := [] |}.

(** The variables of the loop of [parseDiff].  [store] holds the chunk
    objects in allocation order; [currentChunk] and the [chunks] of a file
    are references into it, so a write through [currentChunk] shows in the
    file that holds the chunk, also after the file has been pushed to
    [diffs].  A file object is written through [currentDiff] only and is
    pushed when [currentDiff] is replaced, so it is kept by value. *)
Record ParserState := {
  diffs : list (FileDiffOf nat);
  currentDiff : option (FileDiffOf nat);
  currentChunk : option nat;
  store : list DiffChunk
}.

Definition initial_state : ParserState :=
  {| diffs := []; currentDiff := None; currentChunk := None; store := [] |}.

Definition empty_diff : FileDiffOf nat :=
  {| oldFile := []; newFile := []; isDeleted := false; isNew := false;
     chunks := [] |}.

Definition set_currentDiff (d : FileDiffOf nat) (st : ParserState)
  : ParserState :=
  {| diffs := diffs st; currentDiff := Some d;
     currentChunk := currentChunk st; store := store st |}.

Definition set_store (h : list DiffChunk) (st : ParserState) : ParserState :=
  {| diffs := diffs st; currentDiff := currentDiff st;
     currentChunk := currentChunk st; store := h |}.

(** [currentChunk.lines.push({type: 'added', content, newLineNumber:
    currentChunk.newStart++})]: the line gets the value the field had, and
    the field the incremented one. *)
Definition push_added (text : jsstring) (c : DiffChunk) : DiffChunk :=
  {| oldStart := oldStart c; oldLines := oldLines c;
     newStart := increment (newStart c); newLines := newLines c;
     lines := lines c ++ [{| type := added; content := text;
                             oldLineNumber := None;
                             newLineNumber := Some (newStart c) |}] |}.

Definition push_removed (text : jsstring) (c : DiffChunk) : DiffChunk :=
  {| oldStart := increment (oldStart c); oldLines := oldLines c;
     newStart := newStart c; newLines := newLines c;
     lines := lines c ++ [{| type := removed; content := text;
                             oldLineNumber := Some (oldStart c);
                             newLineNumber := None |}] |}.

Definition push_context (text : jsstring) (c : DiffChunk) : DiffChunk :=
  {| oldStart := increment (oldStart c); oldLines := oldLines c;
     newStart := increment (newStart c); newLines := newLines c;
     lines := lines c ++ [{| type := context; content := text;
                             oldLineNumber := Some (oldStart c);
                             newLineNumber := Some (newStart c) |}] |}.

(** A write through the reference [r]; a dangling reference fails. *)
Definition update_chunk (r : nat) (f : DiffChunk → DiffChunk)
    (st : ParserState) : option ParserState :=
  c ← store st !! r;
  Some (set_store (<[r := f c]> (store st)) st).

(** The content-line branch, taken when [currentChunk] is not null. *)
Definition content_line (r : nat) (line : jsstring) (st : ParserState)
  : option ParserState :=
  if startsWith line (lit "+") then
    update_chunk r (push_added (substring_from line 1)) st
  else if startsWith line (lit "-") then
    update_chunk r (push_removed (substring_from line 1)) st
  else if startsWith line (lit " ") then
    update_chunk r (push_context (substring_from line 1)) st
  else if key_eqb line (lit "\ No newline at end of file") then Some st
  else Some st.

(** The [@@ ] branch: a chunk is created and pushed only when the pattern
    matches. *)
Definition hunk_line (d : FileDiffOf nat) (line : jsstring)
    (st : ParserState) : ParserState :=
  match hunk_match line with
  | Some g =>
      let r := length (store st) in
      {| diffs := diffs st;
         currentDiff :=
           Some {| oldFile := oldFile d; newFile := newFile d;
                   isDeleted := isDeleted d; isNew := isNew d;
                   chunks := chunks d ++ [r] |};
         currentChunk := Some r;
         store := store st ++ [new_chunk g] |}
  | None => st
  end.

(** The body of the loop over the lines. *)
Definition parse_line (st : ParserState) (line : jsstring)
  : option ParserState :=
  if startsWith line (lit "diff --git ") then
    Some {| diffs := match currentDiff st with
                     | Some d => diffs st ++ [d]
                     | None => diffs st
                     end;
            currentDiff := Some empty_diff;
            currentChunk := currentChunk st;
            store := store st |}
  else
    match currentDiff st with
    | None => Some st
    | Some d =>
        if startsWith line (lit "--- a/") then
          Some (set_currentDiff
                  {| oldFile := substring_from line 6; newFile := newFile d;
                     isDeleted := isDeleted d; isNew := isNew d;
                     chunks := chunks d |} st)
        else if startsWith line (lit "+++ b/") then
          Some (set_currentDiff
                  {| oldFile := oldFile d; newFile := substring_from line 6;
                     isDeleted := isDeleted d; isNew := isNew d;
                     chunks := chunks d |} st)
        else if startsWith line (lit "+++ /dev/null") then
          Some (set_currentDiff
                  {| oldFile := oldFile d; newFile := newFile d;
                     isDeleted := true; isNew := isNew d;
                     chunks := chunks d |} st)
        else if startsWith line (lit "--- /dev/null") then
          Some (set_currentDiff
                  {| oldFile := oldFile d; newFile := newFile d;
                     isDeleted := isDeleted d; isNew := true;
                     chunks := chunks d |} st)
        else if startsWith line (lit "index ")
                || startsWith line (lit "new file mode ")
                || startsWith line (lit "deleted file mode ") then
          Some st
        else if startsWith line (lit "@@ ") then
          Some (hunk_line d line st)
        else
          match currentChunk st with
          | Some r => content_line r line st
          | None => Some st
          end
    end.

Fixpoint parse_lines (st : ParserState) (ls : list jsstring)
  : option ParserState :=
  match ls with
  | [] => Some st
  | line :: ls' => st' ← parse_line st line; parse_lines st' ls'
  end.

(** The chunks a file refers to, read from the store when [parseDiff]
    returns. *)
Definition resolve (h : list DiffChunk) (d : FileDiffOf nat)
  : option FileDiff :=
  cs ← mapM (λ r, h !! r) (chunks d);
  Some {| oldFile := oldFile d; newFile := newFile d;
          isDeleted := isDeleted d; isNew := isNew d; chunks := cs |}.

Definition finish (st : ParserState) : option (list FileDiff) :=
  mapM (resolve (store st))
       (match currentDiff st with
        | Some d => diffs st ++ [d]
        | None => diffs st
        end).

Definition parseDiff (diffStr : jsstring) : option (list FileDiff) :=
  st ← parse_lines initial_state (split_lines diffStr);
  finish st.

(** ** The summarizer: [summarizeDiff] *)

Record FileChange := {
  file : jsstring;
  f_insertions : Z;
  f_deletions : Z;
  f_isDeleted : bool;
  f_isNew : bool
}.

Record DiffSummary := {
  filesChanged : Z;
  insertions : Z;
  deletions : Z;
  fileChanges : list FileChange
}.

(** The innermost loop body: the two counters of the file. *)
Definition count_line (acc : Z * Z) (line : DiffLine) : Z * Z :=
  let '(fileInsertions, fileDeletions) := acc in
  let fileInsertions :=
    match type line with added => (fileInsertions + 1)%Z | _ => fileInsertions end in
  let fileDeletions :=
    match type line with removed => (fileDeletions + 1)%Z | _ => fileDeletions end in
  (fileInsertions, fileDeletions).

Definition count_chunk (acc : Z * Z) (chunk : DiffChunk) : Z * Z :=
  fold_left count_line (lines chunk) acc.

(** The outer loop body: the totals and the array [fileChanges]. *)
Definition summarize_file (acc : Z * Z * list FileChange) (diff : FileDiff)
  : Z * Z * list FileChange :=
  let '(totalInsertions, totalDeletions, fileChanges) := acc in
  let '(fileInsertions, fileDeletions) :=
    fold_left count_chunk (chunks diff) (0%Z, 0%Z) in
  ((totalInsertions + fileInsertions)%Z,
   (totalDeletions + fileDeletions)%Z,
   fileChanges ++
     [{| file := if isDeleted diff then oldFile diff else newFile diff;
         f_insertions := fileInsertions;
         f_deletions := fileDeletions;
         f_isDeleted := isDeleted diff;
         f_isNew := isNew diff |}]).

Definition summarize (diffs : list FileDiff) : DiffSummary :=
  let '(totalInsertions, totalDeletions, fileChanges) :=
    fold_left summarize_file diffs (0%Z, 0%Z, []) in
  {| filesChanged := Z.of_nat (length diffs);
     insertions := totalInsertions;
     deletions := totalDeletions;
     fileChanges := fileChanges |}.

Definition summarizeDiff (diffStr : jsstring) : option DiffSummary :=
  diffs ← parseDiff diffStr;
  Some (summarize diffs).

Definition scenario1 : jsstring :=
  lit "diff --git a/x.txt b/x.txt" ++ nl ++ lit "--- a/x.txt" ++ nl
  ++ lit "+++ b/x.txt" ++ nl ++ lit "@@ -1,2 +1,3 @@" ++ nl
  ++ lit " line1" ++ nl ++ lit "-line2" ++ nl ++ lit "+line2x" ++ nl
  ++ lit "+line3" ++ nl.

(** ** Specification-level notions for the segmenter *)

(** The headers the loop finds from [lastIndex] on: every match starts at
    or after the end of the previous one, lies inside the subject, and is
    the header text followed by a line feed. *)
Inductive header_chain (diffStr : jsstring) : nat → list FileHeader → Prop :=
  | chain_nil lastIndex : header_chain diffStr lastIndex []
  | chain_cons lastIndex h hs :
      lastIndex ≤ index h →
      index h + length (m0 (match_ h)) ≤ length diffStr →
      drop (index h) diffStr
        = m0 (match_ h) ++ drop (index h + length (m0 (match_ h))) diffStr →
      m0 (match_ h)
        = lit "diff --git a/" ++ fileName h ++ lit " b/" ++ m2 (match_ h) ++ [LF] →
      header_chain diffStr (index h + length (m0 (match_ h))) hs →
      header_chain diffStr lastIndex (h :: hs).

(** Where the text of a file ends: at the next header, or at the end of
    the input after the last one. *)
Definition first_index (diffStr : jsstring) (hs : list FileHeader) : nat :=
  match hs with
  | h :: _ => index h
  | [] => length diffStr
  end.

(** The key and the text the second loop writes for each header. *)
Fixpoint segments (diffStr : jsstring) (hs : list FileHeader)
  : list (jsstring * jsstring) :=
  match hs with
  | [] => []
  | h :: hs' =>
      (fileName h, substring diffStr (index h) (first_index diffStr hs'))
      :: segments diffStr hs'
  end.

Definition write_all (kvs : list (jsstring * jsstring)) (o : jsobject)
  : jsobject :=
  fold_left (λ o kv, obj_set kv.1 kv.2 o) kvs o.

(** The lines of the input that end in a line feed: the pieces of [split]
    but the last one. *)
Definition terminated_lines (s : jsstring) : list jsstring :=
  removelast (split_lines s).

(** A line matches the file-header pattern when the pattern matches
    somewhere in the line taken with its line feed. *)
Definition is_header_line (l : jsstring) : bool :=
  match re_search filePattern_at (l ++ [LF]) 0 with
  | Some _ => true
  | None => false
  end.

Definition header_line_count (s : jsstring) : nat :=
  length (filter (λ l, is_header_line l = true) (terminated_lines s)).

(** Segmentation coverage as the specification words it: as many entries
    as header lines, whose texts, in the order of the object, give back the
    input. *)
Definition segmentation_coverage (diffStr : jsstring) : Prop :=
  ∃ fileDiffs,
    splitDiffByFiles diffStr = Some fileDiffs
    ∧ length (obj_entries fileDiffs) = header_line_count diffStr
    ∧ concat (obj_entries fileDiffs).*2 = diffStr.

(** ** Specification-level notions for the parser *)

(** The references of a file point into the store. *)
Definition refs_in (h : list DiffChunk) (d : FileDiffOf nat) : Prop :=
  Forall (λ r, r < length h) (chunks d).

(** No reference of the parser dangles. *)
Record state_ok (st : ParserState) : Prop := {
  ok_chunk : ∀ r, currentChunk st = Some r → r < length (store st);
  ok_current : ∀ d, currentDiff st = Some d → refs_in (store st) d;
  ok_diffs : Forall (refs_in (store st)) (diffs st)
}.

(** Two patterns that start with different code units. *)
Definition head_differs (p q : jsstring) : bool :=
  match p, q with
  | c :: _, d :: _ => negb (N.eqb c d)
  | _, _ => false
  end.

(** A malformed hunk header: the line takes the [@@ ] branch and the
    pattern matches nowhere in it. *)
Definition malformed_header (line : jsstring) : Prop :=
  startsWith line (lit "@@ ") = true ∧ hunk_match line = None.

(** No line of [ls] is a hunk header the parser recognizes. *)
Definition no_hunk_header (ls : list jsstring) : Prop :=
  Forall (λ l, startsWith l (lit "@@ ") = true → hunk_match l = None) ls.

(** C3 as the specification words it: whatever was parsed before, the
    lines after a malformed header are appended to no hunk. *)
Definition skips_after_malformed (before : list jsstring) (bad : jsstring)
    (after : list jsstring) : Prop :=
  ∀ st st',
    parse_lines initial_state before = Some st →
    parse_lines st (bad :: after) = Some st' →
    store st' = store st.

(** The line [line], read in state [st], is recorded in the chunk [r] as a
    [DiffLine] of type [t] without its marker. *)
Definition records_line (st : ParserState) (r : nat) (line : jsstring)
    (t : LineType) : Prop :=
  ∃ c st' c' dl,
    store st !! r = Some c
    ∧ parse_line st line = Some st'
    ∧ store st' !! r = Some c'
    ∧ lines c' = lines c ++ [dl]
    ∧ type dl = t
    ∧ content dl = substring_from line 1.

(** C4 as the specification words it: with a hunk open, the marker alone
    decides. *)
Definition classifies_by_marker (st : ParserState) (line : jsstring) : Prop :=
  ∀ d r,
    currentDiff st = Some d → currentChunk st = Some r →
    r < length (store st) →
    (startsWith line (lit "+") = true → records_line st r line added)
    ∧ (startsWith line (lit "-") = true → records_line st r line removed)
    ∧ (startsWith line (lit " ") = true → records_line st r line context).

(** ** Specification-level notions for the summarizer *)

Definition Zsum (l : list Z) : Z := foldr Z.add 0%Z l.

(** The name a file is reported under: the old path of a deleted file, the
    new path otherwise. *)
Definition reported_under (diff : FileDiff) (fc : FileChange) : Prop :=
  f_isDeleted fc = isDeleted diff
  ∧ (isDeleted diff = true → file fc = oldFile diff)
  ∧ (isDeleted diff = false → file fc = newFile diff).

(** A string of decimal digits. *)
Definition digits (ds : jsstring) : Prop := Forall (λ c, is_digit c = true) ds.

(** The text of a hunk header: the start of each side, with or without the
    comma and the count, and whatever follows the closing [@@]. *)
Definition count_suffix (n : option jsstring) : jsstring :=
  match n with
  | Some ds => comma :: ds
  | None => []
  end.

Definition hunk_header (os : jsstring) (ol : option jsstring)
    (ns : jsstring) (nl : option jsstring) (tail : jsstring) : jsstring :=
  lit "@@ -" ++ os ++ count_suffix ol
  ++ lit " +" ++ ns ++ count_suffix nl ++ lit " @@" ++ tail.

Definition well_formed_header (os : jsstring) (ol : option jsstring)
    (ns : jsstring) (nl : option jsstring) : Prop :=
  digits os ∧ os ≠ [] ∧ digits ns ∧ ns ≠ []
  ∧ digits (default [] ol) ∧ digits (default [] nl).

(** The count a header gives: the double nearest to the integer written
    after the comma, or 1 when the header has no number there. *)
Definition count_or_one (n : option jsstring) : number :=
  match n with
  | Some (c :: ds) => to_number (decimal (c :: ds))
  | _ => Finite 1
  end.

(** The chunk a header announces. *)
Definition header_chunk (os : jsstring) (ol : option jsstring)
    (ns : jsstring) (nl : option jsstring) : DiffChunk :=
  {| oldStart := to_number (decimal os); oldLines := count_or_one ol;
     newStart := to_number (decimal ns); newLines := count_or_one nl;
     lines := [] |}.

(** The count a header writes: the integer after the comma itself, or 1
    when the header has no number there. *)
Definition written_count (n : option jsstring) : number :=
  match n with
  | Some (c :: ds) => Finite (decimal (c :: ds))
  | _ => Finite 1
  end.

(** The count of a side is an integer every double up to which is exact. *)
Definition small_count (n : option jsstring) : Prop :=
  (decimal (default [] n) ≤ max_exact)%Z.

(** C8 as the specification words it: the counts of the chunk created for
    a header are the integers the header writes. *)
Definition counts_are_written (st : ParserState) (line : jsstring) : Prop :=
  ∀ d os ol ns nl tail,
    currentDiff st = Some d →
    well_formed_header os ol ns nl →
    line = hunk_header os ol ns nl tail →
    ∃ st' c,
      parse_line st line = Some st'
      ∧ last (store st') = Some c
      ∧ oldLines c = written_count ol
      ∧ newLines c = written_count nl.

(** The parser after it has created the chunk [c] for the file [d]: the
    chunk is the last of the store, the last of the file and the current
    one. *)
Definition open_hunk (d : FileDiffOf nat) (c : DiffChunk) (st : ParserState)
  : ParserState :=
  {| diffs := diffs st;
     currentDiff :=
       Some {| oldFile := oldFile d; newFile := newFile d;
               isDeleted := isDeleted d; isNew := isNew d;
               chunks := chunks d ++ [length (store st)] |};
     currentChunk := Some (length (store st));
     store := store st ++ [c] |}.

(** ** Sample inputs *)

Definition two_files : jsstring :=
  lit "diff --git a/x b/x" ++ nl ++ lit "+a" ++ nl
  ++ lit "diff --git a/y b/z" ++ nl.

Definition two_files_headers : list FileHeader :=
  [{| index := 0; fileName := lit "x";
      match_ := {| m_index := 0; m0 := lit "diff --git a/x b/x" ++ nl;
                   m1 := lit "x"; m2 := lit "x" |} |};
   {| index := 22; fileName := lit "y";
      match_ := {| m_index := 22; m0 := lit "diff --git a/y b/z" ++ nl;
                   m1 := lit "y"; m2 := lit "z" |} |}].

Definition hunk_then_bad_header : list jsstring :=
  [lit "diff --git a/x b/x"; lit "@@ -1 +1 @@"].

(** The parser after [diff --git a/x b/x] and [@@ -1 +1 @@]. *)
Definition hunk_open_state : ParserState :=
  {| diffs := [];
     currentDiff :=
       Some {| oldFile := []; newFile := []; isDeleted := false;
               isNew := false; chunks := [0] |};
     currentChunk := Some 0;
     store := [{| oldStart := Finite 1; oldLines := Finite 1;
                  newStart := Finite 1; newLines := Finite 1;
                  lines := [] |}] |}.

(** The match of the file pattern found in a line, moved into the whole
    text: the captures are the same, the text left is what follows the
    line. *)
Definition with_rest (rest' : jsstring)
    (r : jsstring * jsstring * jsstring) : jsstring * jsstring * jsstring :=
  (r.1.1, r.1.2, rest').

(** ** The parser, line by line

    What one turn of the loop of [parseDiff] does, one case per branch
    that changes a variable; [step_skip] stands for the branches that
    change none. *)

(** The files the parser holds: the pushed ones and the current one. *)
Definition all_files (st : ParserState) : list (FileDiffOf nat) :=
  match currentDiff st with
  | Some d => diffs st ++ [d]
  | None => diffs st
  end.

Inductive line_step (st : ParserState) (line : jsstring)
  : ParserState → Prop :=
  | step_file_header :
      startsWith line (lit "diff --git ") = true →
      line_step st line
        {| diffs := all_files st; currentDiff := Some empty_diff;
           currentChunk := currentChunk st; store := store st |}
  | step_skip :
      startsWith line (lit "diff --git ") = false →
      line_step st line st
  | step_old_name d :
      currentDiff st = Some d →
      startsWith line (lit "--- a/") = true →
      line_step st line
        (set_currentDiff
           {| oldFile := substring_from line 6; newFile := newFile d;
              isDeleted := isDeleted d; isNew := isNew d;
              chunks := chunks d |} st)
  | step_new_name d :
      currentDiff st = Some d →
      startsWith line (lit "+++ b/") = true →
      line_step st line
        (set_currentDiff
           {| oldFile := oldFile d; newFile := substring_from line 6;
              isDeleted := isDeleted d; isNew := isNew d;
              chunks := chunks d |} st)
  | step_deleted d :
      currentDiff st = Some d →
      startsWith line (lit "+++ /dev/null") = true →
      line_step st line
        (set_currentDiff
           {| oldFile := oldFile d; newFile := newFile d;
              isDeleted := true; isNew := isNew d;
              chunks := chunks d |} st)
  | step_new d :
      currentDiff st = Some d →
      startsWith line (lit "--- /dev/null") = true →
      line_step st line
        (set_currentDiff
           {| oldFile := oldFile d; newFile := newFile d;
              isDeleted := isDeleted d; isNew := true;
              chunks := chunks d |} st)
  | step_hunk d g :
      currentDiff st = Some d →
      startsWith line (lit "diff --git ") = false →
      startsWith line (lit "@@ ") = true →
      hunk_match line = Some g →
      line_step st line (open_hunk d (new_chunk g) st)
  | step_added d r c :
      currentDiff st = Some d → currentChunk st = Some r →
      store st !! r = Some c →
      startsWith line (lit "+") = true →
      line_step st line
        (set_store
           (<[r := push_added (substring_from line 1) c]> (store st)) st)
  | step_removed d r c :
      currentDiff st = Some d → currentChunk st = Some r →
      store st !! r = Some c →
      startsWith line (lit "-") = true →
      line_step st line
        (set_store
           (<[r := push_removed (substring_from line 1) c]> (store st)) st)
  | step_context d r c :
      currentDiff st = Some d → currentChunk st = Some r →
      store st !! r = Some c →
      startsWith line (lit " ") = true →
      line_step st line
        (set_store
           (<[r := push_context (substring_from line 1) c]> (store st)) st).

(** ** Notions for the further properties of the parser *)

#[global] Instance LineType_eq_dec : EqDecision LineType.
Proof. solve_decision. Defined.

(** Whether a line is numbered on the old side, on the new side. *)
Definition on_old (l : DiffLine) : bool :=
  match type l with added => false | _ => true end.

Definition on_new (l : DiffLine) : bool :=
  match type l with removed => false | _ => true end.

(** The counter of a side after a line: incremented when the line is on
    that side. *)
Definition bump (b : bool) (x : number) : number :=
  if b then increment x else x.

(** The counters after the lines [ls]. *)
Definition old_counter (o : number) (ls : list DiffLine) : number :=
  fold_left (λ x l, bump (on_old l) x) ls o.

Definition new_counter (n : number) (ls : list DiffLine) : number :=
  fold_left (λ x l, bump (on_new l) x) ls n.

(** The lines are numbered from [o] on the old side and from [n] on the
    new side, each side by its own lines, each number the [++] of the one
    before; a line has no number on the side it is not on. *)
Fixpoint numbered_from (o n : number) (ls : list DiffLine) : Prop :=
  match ls with
  | [] => True
  | l :: ls' =>
      oldLineNumber l = (if on_old l then Some o else None)
      ∧ newLineNumber l = (if on_new l then Some n else None)
      ∧ numbered_from (bump (on_old l) o) (bump (on_new l) n) ls'
  end.

(** The number of lines on a side. *)
Definition one_if (b : bool) : Z := if b then 1%Z else 0%Z.

Definition old_side (ls : list DiffLine) : Z :=
  Zsum ((λ l, one_if (on_old l)) <$> ls).

Definition new_side (ls : list DiffLine) : Z :=
  Zsum ((λ l, one_if (on_new l)) <$> ls).

(** The lines are numbered by the consecutive integers from [o] on the old
    side and from [n] on the new side. *)
Fixpoint numbered_consecutively (o n : Z) (ls : list DiffLine) : Prop :=
  match ls with
  | [] => True
  | l :: ls' =>
      oldLineNumber l = (if on_old l then Some (Finite o) else None)
      ∧ newLineNumber l = (if on_new l then Some (Finite n) else None)
      ∧ numbered_consecutively (o + one_if (on_old l)) (n + one_if (on_new l))
          ls'
  end.

(** The chunk [c] is the one created for the captures [g] of a header,
    after its content lines: its counts are the header's, its lines are
    numbered from the header's starts, and its two start fields are the
    counters after the lines. *)
Definition counted_from (g : jsstring * jsstring * jsstring * jsstring)
    (c : DiffChunk) : Prop :=
  oldLines c = oldLines (new_chunk g)
  ∧ newLines c = newLines (new_chunk g)
  ∧ numbered_from (oldStart (new_chunk g)) (newStart (new_chunk g)) (lines c)
  ∧ oldStart c = old_counter (oldStart (new_chunk g)) (lines c)
  ∧ newStart c = new_counter (newStart (new_chunk g)) (lines c).

(** While the starts of the header and the lines of the chunk stay within
    [2^53], the numbers are consecutive integers and the two start fields
    are the header's starts plus the lines read on each side. *)
Definition consecutive_when_small (g : jsstring * jsstring * jsstring * jsstring)
    (c : DiffChunk) : Prop :=
  ∀ o n,
    oldStart (new_chunk g) = Finite o → newStart (new_chunk g) = Finite n →
    (o + old_side (lines c) ≤ max_exact)%Z →
    (n + new_side (lines c) ≤ max_exact)%Z →
    numbered_consecutively o n (lines c)
    ∧ oldStart c = Finite (o + old_side (lines c))
    ∧ newStart c = Finite (n + new_side (lines c)).

(** The chunk comes from a hunk header among the lines [L]. *)
Definition chunk_of_header (L : list jsstring) (c : DiffChunk) : Prop :=
  ∃ line g,
    line ∈ L ∧ startsWith line (lit "@@ ") = true
    ∧ hunk_match line = Some g
    ∧ counted_from g c.

(** The lines of one type in a chunk list. *)
Definition of_type (t : LineType) (l : DiffLine) : Z :=
  if decide (type l = t) then 1%Z else 0%Z.

Definition lines_of_type (t : LineType) (cs : list DiffChunk) : Z :=
  Zsum ((λ c, Zsum (of_type t <$> lines c)) <$> cs).

(** The lines of a text that start with a given marker. *)
Definition lines_starting (p : jsstring) (ls : list jsstring) : Z :=
  Zsum ((λ l, if startsWith l p then 1%Z else 0%Z) <$> ls).

(** The hunk headers the parser recognizes among the lines: those read
    after a file header, that start with [@@ ] and hold a match of the
    pattern.  [in_file] tells whether a file header has been read. *)
Fixpoint recognized_hunks (in_file : bool) (ls : list jsstring) : nat :=
  match ls with
  | [] => 0
  | l :: ls' =>
      if startsWith l (lit "diff --git ") then recognized_hunks true ls'
      else
        (if in_file && startsWith l (lit "@@ ")
            && bool_decide (is_Some (hunk_match l))
         then 1 else 0)
        + recognized_hunks in_file ls'
  end.

(** Every reference is held once: the references of the files, in order,
    are the places of the store. *)
Definition owned (st : ParserState) : Prop :=
  concat (chunks <$> all_files st) = seq 0 (length (store st)).

(** A file is marked deleted or new only by a line of [L] that says so. *)
Definition flags_from (L : list jsstring) (C : Type) (d : FileDiffOf C)
  : Prop :=
  (isDeleted d = true →
   ∃ l, l ∈ L ∧ startsWith l (lit "+++ /dev/null") = true)
  ∧ (isNew d = true →
     ∃ l, l ∈ L ∧ startsWith l (lit "--- /dev/null") = true).
Arguments flags_from L {C} d.

(** The record of a file counts the lines of its chunks by type and
    copies its flags. *)
Definition counts_lines (diff : FileDiff) (fc : FileChange) : Prop :=
  f_insertions fc = lines_of_type added (chunks diff)
  ∧ f_deletions fc = lines_of_type removed (chunks diff)
  ∧ f_isDeleted fc = isDeleted diff
  ∧ f_isNew fc = isNew diff.

(** ** The other functions of the module and their caller *)

(** The names [Object.prototype] has: a read of one of them on an object
    that has no own property of that name gives the inherited value, a
    function, or for [__proto__] the prototype itself. *)
Definition object_prototype_names : list jsstring :=
  [lit "constructor"; lit "__defineGetter__"; lit "__defineSetter__";
   lit "hasOwnProperty"; lit "__lookupGetter__"; lit "__lookupSetter__";
   lit "isPrototypeOf"; lit "propertyIsEnumerable"; lit "toString";
   lit "valueOf"; lit "__proto__"; lit "toLocaleString"].

(** What [extractFileDiff] can return: a string, [null], or a value
    inherited from [Object.prototype], named by its property. *)
Inductive extracted :=
  | Text (s : jsstring)
  | Null
  | Inherited (name : jsstring).

(** The own property [k] of an object. *)
Fixpoint obj_own (k : jsstring) (o : jsobject) : option jsstring :=
  match o with
  | [] => None
  | (k', v) :: o' => if key_eqb k k' then Some v else obj_own k o'
  end.

(** [fileDiffs[fileName] || null]: the own property when there is one, the
    inherited one otherwise; an empty string and [undefined] are falsy,
    inherited functions and objects are truthy. *)
Definition get_or_null (o : jsobject) (fileName : jsstring) : extracted :=
  match obj_own fileName o with
  | Some v => if truthy v then Text v else Null
  | None =>
      if bool_decide (fileName ∈ object_prototype_names)
      then Inherited fileName
      else Null
  end.

Definition extractFileDiff (diffStr fileName : jsstring) : option extracted :=
  fileDiffs ← splitDiffByFiles diffStr;
  Some (get_or_null fileDiffs fileName).

(** [String.prototype.includes] *)
Fixpoint includes (s p : jsstring) : bool :=
  startsWith s p
  || match s with
     | [] => false
     | _ :: s' => includes s' p
     end.

Record GiteaFile := {
  filename : jsstring;
  status : jsstring;
  additions : Z;
  g_deletions : Z;
  changes : Z;
  patch : jsstring;
  raw_url : jsstring;
  contents_url : jsstring
}.

(** The body of the [map] of [processDiffToGiteaFiles], for one entry. *)
Definition to_gitea_file (entry : jsstring * jsstring) : option GiteaFile :=
  let '(fileName, fileDiffStr) := entry in
  fileSummary ← summarizeDiff fileDiffStr;
  let isDeleted := includes fileDiffStr (lit "+++ /dev/null") in
  let isNew := includes fileDiffStr (lit "--- /dev/null") in
  Some {| filename := fileName;
          status := if isDeleted then lit "removed"
                    else if isNew then lit "added" else lit "modified";
          additions := insertions fileSummary;
          g_deletions := deletions fileSummary;
          changes := (insertions fileSummary + deletions fileSummary)%Z;
          patch := fileDiffStr;
          raw_url := [];
          contents_url := [] |}.

Definition processDiffToGiteaFiles (diffContent : jsstring)
  : option (list GiteaFile) :=
  fileDiffs ← splitDiffByFiles diffContent;
  mapM to_gitea_file (obj_entries fileDiffs).

(** ** Notions for the further properties of the segmenter *)

(** A key is the path between [a/] and the first [ b/] of its header
    line: it holds no line terminator, and [ b/] occurs in the key
    followed by [ b/] only at the end. *)
Definition key_of_header (k : jsstring) : Prop :=
  Forall (λ c, dot c = true) k
  ∧ ∀ pre post, k ++ lit " b/" = pre ++ lit " b/" ++ post → post = [].

(** A value is a piece of the input that starts with a header of its
    key. *)
Definition segment_of (diffStr k v : jsstring) : Prop :=
  ∃ g2 rest pre post,
    v = lit "diff --git a/" ++ k ++ lit " b/" ++ g2 ++ [LF] ++ rest
    ∧ diffStr = pre ++ v ++ post.

(** ** Lines the parser passes over *)

(** A line that takes no branch of the loop of [parseDiff] that changes a
    variable, whatever was read before: it starts with none of
    [diff --git ], [@@ ], [+], [-] and a space (the prefixes [--- a/],
    [+++ b/], [--- /dev/null] and [+++ /dev/null] start with [-] or
    [+]). *)
Definition passed_over (line : jsstring) : Prop :=
  (LF ∉ line)
  ∧ Forall (λ p, startsWith line p = false)
      [lit "diff --git "; lit "@@ "; lit "+"; lit "-"; lit " "].

(** Text in which no line is a file header line. *)
Definition no_file_header (s : jsstring) : Prop :=
  Forall (λ l, startsWith l (lit "diff --git ") = false) (split_lines s).

(** A mail header, as [git format-patch] writes before the diff. *)
Definition mail_header : jsstring :=
  lit "From: a@b" ++ nl ++ lit "+1 file".

(** The names of a file are empty or what follows [--- a/] and [+++ b/]
    in a line of [L]. *)
Definition names_from (L : list jsstring) (C : Type) (d : FileDiffOf C)
  : Prop :=
  (oldFile d = [] ∨ lit "--- a/" ++ oldFile d ∈ L)
  ∧ (newFile d = [] ∨ lit "+++ b/" ++ newFile d ∈ L).
Arguments names_from L {C} d.

(** * Facts about the matchers *)

Lemma startsWith_spec (s p : jsstring) :
  startsWith s p = true ↔ ∃ r, s = p ++ r.
Proof.
  revert s. induction p as [|c p IH]; intros s; simpl.
  - split; [eauto | done].
  - destruct s as [|d s].
    + split; [done | intros (r & Hr); discriminate Hr].
    + destruct (N.eqb_spec c d) as [->|Hne].
      * rewrite IH. split; intros (r & Hr).
        -- exists r. by rewrite Hr.
        -- exists r. by injection Hr.
      * split; [done | intros (r & Hr); injection Hr; congruence].
Qed.

Lemma substring_take_drop (s : jsstring) (a b : nat) :
  a ≤ b → b ≤ length s → substring s a b = take (b - a) (drop a s).
Proof.
  intros Hab Hb. unfold substring.
  by rewrite (Nat.min_l a), (Nat.min_l b), Nat.max_r, Nat.min_l by lia.
Qed.

Section BacktrackingFacts.
Context {R : Type}.

Lemma re_lit_Some l s (k : jsstring → option R) r :
  re_lit l s k = Some r ↔ ∃ s', s = l ++ s' ∧ k s' = Some r.
Proof.
  revert s. induction l as [|c l IH]; intros s; simpl.
  - split; [eauto | by intros (s' & -> & ?)].
  - destruct s as [|d s].
    + split; [done | intros (s' & Hs & _); discriminate Hs].
    + destruct (N.eqb_spec c d) as [->|Hne].
      * rewrite IH. split; intros (s' & Hs & Hk); exists s'.
        -- by rewrite Hs.
        -- split; [by injection Hs | done].
      * split; [done | intros (s' & Hs & _); injection Hs; congruence].
Qed.

Lemma re_lazy_Some p acc s (k : jsstring → jsstring → option R) r :
  re_lazy p acc s k = Some r →
  ∃ mid s', s = mid ++ s' ∧ Forall (λ c, p c = true) mid
            ∧ k (acc ++ mid) s' = Some r.
Proof.
  revert acc. induction s as [|c s IH]; intros acc; simpl.
  - destruct (k acc []) eqn:Hk; [|done].
    intros [= <-]. exists [], [].
    split_and!; [done | constructor | by rewrite app_nil_r].
  - destruct (k acc (c :: s)) eqn:Hk.
    + intros [= <-]. exists [], (c :: s).
      split_and!; [done | constructor | by rewrite app_nil_r].
    + destruct (p c) eqn:Hp; [|done].
      intros (mid & s' & -> & Hmid & Hr)%IH.
      exists (c :: mid), s'. split_and!; [done | by constructor |].
      by rewrite <- app_assoc in Hr.
Qed.

Lemma re_search_Some (at_pos : jsstring → option R) s i j r :
  re_search at_pos s i = Some (j, r) →
  ∃ pre s', s = pre ++ s' ∧ j = i + length pre ∧ at_pos s' = Some r.
Proof.
  revert i. induction s as [|c s IH]; intros i; simpl.
  - destruct (at_pos []) eqn:Hat; [|done].
    intros [= <- <-]. exists [], []. split_and!; [done | simpl; lia | done].
  - destruct (at_pos (c :: s)) eqn:Hat.
    + intros [= <- <-]. exists [], (c :: s).
      split_and!; [done | simpl; lia | done].
    + intros (pre & s' & -> & -> & Hr)%IH.
      exists (c :: pre), s'. split_and!; [done | simpl; lia | done].
Qed.
End BacktrackingFacts.

(** A match of the file pattern is the two literals around the first
    capture, the second capture and a line feed; no capture holds a line
    terminator. *)
Lemma filePattern_at_Some s g1 g2 rest :
  filePattern_at s = Some (g1, g2, rest) →
  s = lit "diff --git a/" ++ g1 ++ lit " b/" ++ g2 ++ [LF] ++ rest
  ∧ Forall (λ c, dot c = true) g1 ∧ Forall (λ c, dot c = true) g2.
Proof.
  unfold filePattern_at.
  intros (s1 & -> & H)%re_lit_Some.
  apply re_lazy_Some in H as (h1 & s2 & -> & Hg1 & H).
  apply re_lit_Some in H as (s3 & -> & H).
  apply re_lazy_Some in H as (h2 & s4 & -> & Hg2 & H).
  apply re_lit_Some in H as (s5 & -> & H).
  simpl in H. injection H as <- <- <-. done.
Qed.

(** What a successful [exec] returns: the match starts at or after
    [lastIndex], is not empty, ends in a line feed inside the subject, and
    the new [lastIndex] is its end. *)
Lemma exec_Some diffStr lastIndex m lastIndex' :
  exec diffStr lastIndex = (Some m, lastIndex') →
  lastIndex ≤ m_index m
  ∧ lastIndex' = m_index m + length (m0 m)
  ∧ lastIndex' ≤ length diffStr
  ∧ drop (m_index m) diffStr = m0 m ++ drop lastIndex' diffStr
  ∧ m0 m = lit "diff --git a/" ++ m1 m ++ lit " b/" ++ m2 m ++ [LF].
Proof.
  unfold exec. case_bool_decide as Hlen; [done|].
  destruct (re_search _ _ _) as [[i [[g1 g2] rest]]|] eqn:Hs; [|done].
  intros [= <- <-]. simpl.
  apply re_search_Some in Hs as (pre & s' & Hdrop & -> & Hat).
  apply filePattern_at_Some in Hat as (-> & _ & _).
  set (M := lit "diff --git a/" ++ g1 ++ lit " b/" ++ g2 ++ [LF]).
  assert (Hdrop' : drop lastIndex diffStr = pre ++ M ++ rest).
  { rewrite Hdrop. unfold M. by rewrite <- !app_assoc. }
  clear Hdrop.
  assert (Hstr : diffStr = take lastIndex diffStr ++ pre ++ M ++ rest).
  { by rewrite <- Hdrop', take_drop. }
  assert (Hl : length diffStr = lastIndex + length pre + length M + length rest).
  { rewrite Hstr at 1. rewrite !length_app, length_take. lia. }
  assert (HdropM : drop (lastIndex + length pre) diffStr = M ++ rest).
  { rewrite <- drop_drop, Hdrop'. by rewrite drop_app_length. }
  assert (Hsub : substring diffStr (lastIndex + length pre)
                   (length diffStr - length rest) = M).
  { rewrite substring_take_drop by lia. rewrite HdropM.
    replace (length diffStr - length rest - (lastIndex + length pre))
      with (length M) by lia.
    by rewrite take_app_length. }
  rewrite Hsub. split_and!; [lia | lia | lia | | done].
  rewrite HdropM. f_equal.
  replace (length diffStr - length rest)
    with (lastIndex + length pre + length M) by lia.
  by rewrite <- drop_drop, HdropM, drop_app_length.
Qed.

(** * Facts about the segmenter *)

Lemma collect_headers_chain fuel diffStr lastIndex acc hs :
  collect_headers fuel diffStr lastIndex acc = Some hs →
  ∃ new, hs = acc ++ new ∧ header_chain diffStr lastIndex new.
Proof.
  revert lastIndex acc.
  induction fuel as [|fuel IH]; intros lastIndex acc; simpl; [done|].
  destruct (exec diffStr lastIndex) as [[m|] lastIndex'] eqn:He.
  - intros (new & -> & Hch)%IH.
    apply exec_Some in He as (Hle & -> & Hlen & Hdrop & Hm0).
    eexists (_ :: new). split; [by rewrite <- app_assoc|].
    by constructor.
  - intros [= <-]. exists []. split; [by rewrite app_nil_r | constructor].
Qed.

(** The loop ends: every match moves [lastIndex] forward, so one turn per
    code unit of the input and one more are enough. *)
Lemma collect_headers_total fuel diffStr lastIndex acc :
  length diffStr - lastIndex < fuel →
  is_Some (collect_headers fuel diffStr lastIndex acc).
Proof.
  revert lastIndex acc.
  induction fuel as [|fuel IH]; intros lastIndex acc Hfuel; [lia|]. simpl.
  destruct (exec diffStr lastIndex) as [[m|] lastIndex'] eqn:He; [|done].
  apply exec_Some in He as (Hle & -> & Hlen & Hdrop & Hm0).
  apply IH.
  assert (0 < length (m0 m)).
  { rewrite Hm0, !length_app. simpl. lia. }
  lia.
Qed.

Lemma split_body_Some diffStr hs i h o :
  hs !! i = Some h →
  split_body diffStr hs i o
  = Some (obj_set (fileName h)
            (substring diffStr (index h) (first_index diffStr (drop (S i) hs)))
            o).
Proof.
  intros Hh. unfold split_body. rewrite Hh. simpl.
  pose proof (lookup_lt_Some _ _ _ Hh) as Hi.
  case_bool_decide as Hlast.
  - destruct (lookup_lt_is_Some_2 hs (S i)) as [h' Hh']; [lia|].
    by rewrite (drop_S _ _ _ Hh'), Nat.add_1_r, Hh'.
  - by rewrite (drop_ge hs (S i)) by lia.
Qed.

Lemma for_range_split_body diffStr hs n i o :
  i + n = length hs →
  for_range n i (split_body diffStr hs) o
  = Some (write_all (segments diffStr (drop i hs)) o).
Proof.
  revert i o. induction n as [|n IH]; intros i o Hn; simpl.
  - by rewrite drop_ge by lia.
  - destruct (lookup_lt_is_Some_2 hs i) as [h Hh]; [lia|].
    rewrite (drop_S _ _ _ Hh), (split_body_Some _ _ _ _ _ Hh). simpl.
    by rewrite IH by lia.
Qed.

Lemma segments_keys diffStr hs :
  (segments diffStr hs).*1 = fileName <$> hs.
Proof.
  induction hs as [|h hs IH]; [done|].
  cbn [segments]. by rewrite !fmap_cons, IH.
Qed.

Lemma header_chain_first diffStr lastIndex hs :
  header_chain diffStr lastIndex hs →
  first_index diffStr hs ≤ length diffStr.
Proof. destruct 1; simpl; lia. Qed.

(** The texts of the segments, in header order, are the input from the
    first header on. *)
Lemma segments_concat diffStr lastIndex hs :
  header_chain diffStr lastIndex hs →
  concat (segments diffStr hs).*2 = drop (first_index diffStr hs) diffStr.
Proof.
  induction 1 as [|li h hs Hle Hlen Hdrop Hm0 Hch IH].
  - simpl. by rewrite drop_all.
  - cbn [segments first_index]. rewrite fmap_cons, concat_cons, IH.
    cbn [snd].
    assert (Hnext : index h ≤ first_index diffStr hs ≤ length diffStr).
    { split; [|by eapply header_chain_first].
      inversion Hch; subst; simpl; lia. }
    rewrite substring_take_drop by lia.
    replace (first_index diffStr hs)
      with (index h + (first_index diffStr hs - index h)) at 2 by lia.
    by rewrite <- drop_drop, take_drop.
Qed.

(** ** The returned object *)

Lemma obj_replace_None k v (o : jsobject) :
  k ∉ o.*1 → obj_replace k v o = None.
Proof.
  induction o as [|[k' v'] o IH]; [done|].
  rewrite fmap_cons, not_elem_of_cons. intros [Hne Hnin]. simpl.
  unfold key_eqb. rewrite bool_decide_eq_false_2 by done.
  by rewrite IH.
Qed.

(** Writing keys that are new, pairwise distinct and not [__proto__]
    appends the properties in the order of the writes. *)
Lemma write_all_fresh kvs (o : jsobject) :
  NoDup kvs.*1 →
  lit "__proto__" ∉ kvs.*1 →
  (∀ k, k ∈ kvs.*1 → k ∉ o.*1) →
  write_all kvs o = o ++ kvs.
Proof.
  revert o. induction kvs as [|[k v] kvs IH]; intros o Hnd Hproto Hfresh.
  - by rewrite app_nil_r.
  - rewrite fmap_cons in Hnd, Hproto, Hfresh.
    apply NoDup_cons in Hnd as [Hk Hnd].
    apply not_elem_of_cons in Hproto as [Hkp Hproto].
    unfold write_all. simpl. fold (write_all kvs).
    unfold obj_set, key_eqb. simpl.
    rewrite bool_decide_eq_false_2 by done.
    rewrite obj_replace_None by (apply Hfresh; left).
    rewrite IH; [by rewrite <- app_assoc | done | done |].
    intros k' Hk'. rewrite fmap_app, elem_of_app. simpl.
    intros [Hin | ->%list_elem_of_singleton]; [|done].
    by apply (Hfresh k'); [right|].
Qed.

Lemma insert_by_index_length e (l : jsobject) :
  length (insert_by_index e l) = S (length l).
Proof.
  induction l as [|e' l IH]; simpl; [done|].
  destruct (N.leb _ _); simpl; [done | by rewrite IH].
Qed.

Lemma sort_by_index_length (l : jsobject) :
  length (sort_by_index l) = length l.
Proof.
  induction l as [|e l IH]; simpl; [done|].
  by rewrite insert_by_index_length, IH.
Qed.

(** Enumeration reorders the properties and loses none. *)
Lemma obj_entries_length (o : jsobject) :
  length (obj_entries o) = length o.
Proof.
  unfold obj_entries. rewrite length_app, sort_by_index_length.
  induction o as [|e o IH]; [done|].
  rewrite !filter_cons. destruct (decide (is_array_index e.1 = true)).
  - rewrite decide_False by (by intros []). simpl. lia.
  - rewrite decide_True by done. simpl. lia.
Qed.

(** Without array-index keys, enumeration is in creation order. *)
Lemma obj_entries_creation_order (o : jsobject) :
  Forall (λ k, is_array_index k = false) o.*1 → obj_entries o = o.
Proof.
  unfold obj_entries. induction o as [|e o IH]; [done|].
  rewrite fmap_cons, Forall_cons. intros [He Ho].
  rewrite !filter_cons.
  rewrite decide_False by congruence.
  rewrite decide_True by congruence.
  specialize (IH Ho).
  destruct (filter (λ e0, is_array_index e0.1 = true) o) as [|x xs] eqn:Hf.
  - simpl in *. by rewrite IH.
  - exfalso.
    assert (Hx : x ∈ filter (λ e0, is_array_index e0.1 = true) o)
      by (rewrite Hf; left).
    apply list_elem_of_filter in Hx as [Hx1 Hx2].
    rewrite Forall_forall in Ho.
    rewrite (Ho x.1) in Hx1; [done|].
    by apply list_elem_of_fmap_2.
Qed.

Example split_two :
  splitDiffByFiles (lit "diff --git a/x b/x" ++ nl ++ lit "+a" ++ nl
                    ++ lit "diff --git a/y b/z" ++ nl)
  = Some [(lit "x", lit "diff --git a/x b/x" ++ nl ++ lit "+a" ++ nl);
          (lit "y", lit "diff --git a/y b/z" ++ nl)].
Proof. vm_compute. reflexivity. Qed.

(** * The segmenter: one header per header line *)

Section LineLocal.
Context {R : Type} (f : R → R) (rest' : jsstring).

(** A matcher looks at a line and its line feed only: when the
    continuations on the whole text and on the line alone agree up to [f]
    wherever the line has not ended, so do the matchers. *)
Lemma re_lit_local l u (k k0 : jsstring → option R) :
  LF ∉ l →
  (∀ u', LF ∉ u' → k (u' ++ LF :: rest') = f <$> k0 (u' ++ [LF])) →
  LF ∉ u →
  re_lit l (u ++ LF :: rest') k = f <$> re_lit l (u ++ [LF]) k0.
Proof.
  intros Hl Hk. revert u.
  induction l as [|c l IH]; intros u Hu; [by apply Hk|].
  apply not_elem_of_cons in Hl as [Hc Hl].
  destruct u as [|d u]; simpl.
  - by destruct (N.eqb_spec c LF).
  - apply not_elem_of_cons in Hu as [_ Hu].
    destruct (N.eqb_spec c d); [by apply IH | done].
Qed.

Lemma re_lazy_local p acc u (k k0 : jsstring → jsstring → option R) :
  p LF = false →
  (∀ a u', LF ∉ u' → k a (u' ++ LF :: rest') = f <$> k0 a (u' ++ [LF])) →
  LF ∉ u →
  re_lazy p acc (u ++ LF :: rest') k = f <$> re_lazy p acc (u ++ [LF]) k0.
Proof.
  intros Hp Hk. revert acc.
  induction u as [|d u IH]; intros acc Hu.
  - pose proof (Hk acc [] Hu) as Hk0. simpl in *. rewrite Hk0.
    destruct (k0 acc [LF]); simpl; [done|]. by rewrite Hp.
  - pose proof Hu as [_ Hu']%not_elem_of_cons.
    pose proof (Hk acc (d :: u) Hu) as Hk0. simpl in *. rewrite Hk0.
    destruct (k0 acc (d :: u ++ [LF])); simpl; [done|].
    destruct (p d); [by apply IH | done].
Qed.
End LineLocal.

(** The file pattern at a place of a line: the match is the one found in
    the line taken alone. *)
Lemma filePattern_at_local u rest' :
  LF ∉ u →
  filePattern_at (u ++ LF :: rest')
  = with_rest rest' <$> filePattern_at (u ++ [LF]).
Proof.
  intros Hu. unfold filePattern_at.
  apply re_lit_local; [by apply (bool_decide_unpack _); vm_compute | | done].
  intros u1 Hu1. apply re_lazy_local; [done | | done].
  intros g1 u2 Hu2.
  apply re_lit_local; [by apply (bool_decide_unpack _); vm_compute | | done].
  intros u3 Hu3. apply re_lazy_local; [done | | done].
  intros g2 u4 Hu4.
  destruct u4 as [|d u4]; cbn [app re_lit].
  - by rewrite N.eqb_refl.
  - apply not_elem_of_cons in Hu4 as [Hd _].
    destruct (N.eqb_spec LF d); [congruence | done].
Qed.

(** The search through a line: a match in the line, or else the search
    through the text after the line. *)
Lemma re_search_line l rest' i :
  LF ∉ l →
  re_search filePattern_at (l ++ LF :: rest') i
  = match re_search filePattern_at (l ++ [LF]) i with
    | Some (j, r) => Some (j, with_rest rest' r)
    | None => re_search filePattern_at rest' (i + length l + 1)
    end.
Proof.
  revert i. induction l as [|c l IH]; intros i Hl.
  - replace (i + length (@nil N) + 1) with (S i) by (simpl; lia).
    reflexivity.
  - pose proof Hl as [_ Hl']%not_elem_of_cons.
    cbn [app re_search].
    change (c :: l ++ LF :: rest') with ((c :: l) ++ LF :: rest').
    change (c :: l ++ [LF]) with ((c :: l) ++ [LF]).
    rewrite (filePattern_at_local (c :: l) rest' Hl).
    destruct (filePattern_at ((c :: l) ++ [LF])) as [r|]; simpl; [done|].
    rewrite IH by done.
    by replace (S i + length l + 1) with (i + S (length l) + 1) by lia.
Qed.

Lemma re_search_no_line_feed s i :
  LF ∉ s → re_search filePattern_at s i = None.
Proof.
  intros Hs.
  destruct (re_search filePattern_at s i) as [[j [[g1 g2] rest]]|] eqn:H;
    [|done].
  apply re_search_Some in H as (pre & s' & -> & _ & Hat).
  apply filePattern_at_Some in Hat as (-> & _ & _).
  exfalso. apply Hs. rewrite !elem_of_app. do 5 right. left.
  by apply list_elem_of_singleton.
Qed.

Lemma re_search_None_index {R : Type} (at_pos : jsstring → option R) s i j :
  re_search at_pos s i = None → re_search at_pos s j = None.
Proof.
  revert i j. induction s as [|c s IH]; intros i j; simpl.
  - by destruct (at_pos []).
  - destruct (at_pos (c :: s)); [done|]. apply IH.
Qed.

Lemma split_lines_aux_no_line_feed cur s :
  LF ∉ s → split_lines_aux cur s = [cur ++ s].
Proof.
  revert cur. induction s as [|c s IH]; intros cur Hs; simpl.
  - by rewrite app_nil_r.
  - apply not_elem_of_cons in Hs as [Hc Hs].
    destruct (N.eqb_spec c LF); [done|].
    by rewrite IH, <- app_assoc.
Qed.

Lemma split_lines_aux_line cur l rest :
  LF ∉ l →
  split_lines_aux cur (l ++ LF :: rest)
  = (cur ++ l) :: split_lines_aux [] rest.
Proof.
  revert cur. induction l as [|c l IH]; intros cur Hl; simpl.
  - by rewrite app_nil_r.
  - apply not_elem_of_cons in Hl as [Hc Hl].
    destruct (N.eqb_spec c LF); [done|].
    by rewrite IH, <- app_assoc.
Qed.

Lemma split_lines_aux_nonempty cur s : split_lines_aux cur s ≠ [].
Proof.
  revert cur. induction s as [|c s IH]; intros cur; simpl; [done|].
  destruct (N.eqb c LF); [done | apply IH].
Qed.

Lemma terminated_lines_no_line_feed s : LF ∉ s → terminated_lines s = [].
Proof.
  intros Hs. unfold terminated_lines, split_lines.
  by rewrite split_lines_aux_no_line_feed.
Qed.

Lemma terminated_lines_line l rest :
  LF ∉ l → terminated_lines (l ++ LF :: rest) = l :: terminated_lines rest.
Proof.
  intros Hl. unfold terminated_lines, split_lines.
  rewrite split_lines_aux_line by done. simpl.
  pose proof (split_lines_aux_nonempty [] rest).
  by destruct (split_lines_aux [] rest).
Qed.

Lemma first_line (s : jsstring) :
  LF ∉ s ∨ ∃ l rest, s = l ++ LF :: rest ∧ LF ∉ l.
Proof.
  induction s as [|c s IH].
  - left. apply not_elem_of_nil.
  - destruct (decide (c = LF)) as [->|Hc].
    + right. exists [], s. split; [done | apply not_elem_of_nil].
    + destruct IH as [Hs | (l & rest & -> & Hl)].
      * left. by apply not_elem_of_cons.
      * right. exists (c :: l), rest. split; [done|].
        by apply not_elem_of_cons.
Qed.

Lemma header_line_count_line l rest :
  LF ∉ l →
  header_line_count (l ++ LF :: rest)
  = (if is_header_line l then 1 else 0) + header_line_count rest.
Proof.
  intros Hl. unfold header_line_count.
  rewrite terminated_lines_line, filter_cons by done.
  destruct (is_header_line l); [by rewrite decide_True | by rewrite decide_False].
Qed.

(** The loop finds one header in each line that matches the pattern and
    none elsewhere. *)
Lemma collect_headers_count n fuel diffStr lastIndex acc hs :
  length diffStr - lastIndex ≤ n → lastIndex ≤ length diffStr →
  collect_headers fuel diffStr lastIndex acc = Some hs →
  length hs = length acc + header_line_count (drop lastIndex diffStr).
Proof.
  revert fuel lastIndex acc.
  induction n as [|n IH]; intros fuel lastIndex acc Hn Hle Hhs;
    (destruct fuel as [|fuel]; [done|]); simpl in Hhs; unfold exec in Hhs;
    rewrite bool_decide_eq_false_2 in Hhs by lia;
    destruct (first_line (drop lastIndex diffStr))
      as [Hno | (l & rest & Hdrop & Hl)].
  - rewrite re_search_no_line_feed in Hhs by done. injection Hhs as <-.
    unfold header_line_count. rewrite terminated_lines_no_line_feed by done.
    simpl. lia.
  - exfalso. apply (f_equal length) in Hdrop.
    rewrite length_drop, length_app in Hdrop. simpl in Hdrop. lia.
  - rewrite re_search_no_line_feed in Hhs by done. injection Hhs as <-.
    unfold header_line_count. rewrite terminated_lines_no_line_feed by done.
    simpl. lia.
  - assert (Hlen : length diffStr - lastIndex = length l + 1 + length rest).
    { apply (f_equal length) in Hdrop.
      rewrite length_drop, length_app in Hdrop. simpl in Hdrop. lia. }
    assert (Hrest : drop (lastIndex + length l + 1) diffStr = rest).
    { rewrite <- Nat.add_assoc, <- drop_drop, Hdrop.
      rewrite drop_app_add'; [|done]. done. }
    rewrite Hdrop, header_line_count_line by done.
    rewrite Hdrop, re_search_line in Hhs by done.
    unfold is_header_line.
    destruct (re_search filePattern_at (l ++ [LF]) lastIndex)
      as [[j [[g1 g2] r]]|] eqn:Hline.
    + destruct (re_search filePattern_at (l ++ [LF]) 0) eqn:H0;
        [|by rewrite (re_search_None_index _ _ 0 lastIndex H0) in Hline].
      unfold with_rest in Hhs. cbn [fst snd] in Hhs.
      apply IH in Hhs; [| lia | lia].
      replace (length diffStr - length rest)
        with (lastIndex + length l + 1) in Hhs by lia.
      rewrite Hrest, length_app in Hhs. simpl in Hhs. lia.
    + rewrite (re_search_None_index _ _ lastIndex 0 Hline).
      assert (Hnext : collect_headers (S fuel) diffStr
                        (lastIndex + length l + 1) acc = Some hs).
      { simpl. unfold exec. rewrite bool_decide_eq_false_2 by lia.
        by rewrite Hrest. }
      apply IH in Hnext; [| lia | lia]. by rewrite Hrest in Hnext.
Qed.

Lemma fileHeaders_of_count diffStr hs :
  fileHeaders_of diffStr = Some hs → length hs = header_line_count diffStr.
Proof.
  intros Hhs.
  by apply (collect_headers_count (length diffStr)) in Hhs; [| lia | lia].
Qed.

(** * The segmenter: coverage *)

Lemma fileHeaders_of_chain diffStr hs :
  fileHeaders_of diffStr = Some hs → header_chain diffStr 0 hs.
Proof.
  unfold fileHeaders_of.
  by intros (new & -> & Hch)%collect_headers_chain.
Qed.

Lemma fileHeaders_of_total diffStr : is_Some (fileHeaders_of diffStr).
Proof. apply collect_headers_total. lia. Qed.

Lemma splitDiffByFiles_write_all diffStr hs :
  fileHeaders_of diffStr = Some hs →
  splitDiffByFiles diffStr = Some (write_all (segments diffStr hs) []).
Proof.
  intros Hhs. unfold splitDiffByFiles. rewrite Hhs. simpl.
  by rewrite for_range_split_body by lia.
Qed.

Example split_prefix_dropped :
  splitDiffByFiles (lit "x" ++ nl ++ lit "diff --git a/f b/f" ++ nl)
  = Some [(lit "f", lit "diff --git a/f b/f" ++ nl)].
Proof. vm_compute. reflexivity. Qed.

Example split_same_path :
  splitDiffByFiles (lit "diff --git a/f b/f" ++ nl
                    ++ lit "diff --git a/f b/g" ++ nl)
  = Some [(lit "f", lit "diff --git a/f b/g" ++ nl)].
Proof. vm_compute. reflexivity. Qed.

Example split_proto_lost :
  splitDiffByFiles (lit "diff --git a/__proto__ b/f" ++ nl) = Some [].
Proof. vm_compute. reflexivity. Qed.

Example split_index_keys_first :
  obj_entries <$>
    splitDiffByFiles (lit "diff --git a/b b/b" ++ nl
                      ++ lit "diff --git a/7 b/7" ++ nl)
  = Some [(lit "7", lit "diff --git a/7 b/7" ++ nl);
          (lit "b", lit "diff --git a/b b/b" ++ nl)].
Proof. vm_compute. reflexivity. Qed.

(** C1, as stated, fails: text before the first header belongs to no
    entry, and two headers with the same [a/] path share one entry. *)
Lemma segmentation_coverage_fails :
  ¬ segmentation_coverage
      (lit "x" ++ nl ++ lit "diff --git a/f b/f" ++ nl
       ++ lit "diff --git a/f b/g" ++ nl).
Proof.
  intros (fileDiffs & Hsplit & Hlen & _).
  vm_compute in Hsplit. injection Hsplit as <-.
  vm_compute in Hlen. discriminate Hlen.
Qed.

(** C1, amended.  Let [fileHeaders] be the matches of the header pattern
    in the input, in order; there is one for each line that matches the
    pattern, [k] in all.  When their [a/] paths are pairwise distinct and
    none is [__proto__], the returned object has exactly [k] entries.  When
    moreover no path is an array index, the entries are in header order and
    their texts, concatenated in that order, are the input from the first
    header on: the input is the text before the first header followed by
    that concatenation. *)
Theorem splitDiffByFiles_coverage (diffStr : jsstring)
    (fileHeaders : list FileHeader) :
  fileHeaders_of diffStr = Some fileHeaders →
  NoDup (fileName <$> fileHeaders) →
  lit "__proto__" ∉ fileName <$> fileHeaders →
  ∃ fileDiffs,
    splitDiffByFiles diffStr = Some fileDiffs
    ∧ length fileHeaders = header_line_count diffStr
    ∧ length (obj_entries fileDiffs) = header_line_count diffStr
    ∧ (Forall (λ k, is_array_index k = false) (fileName <$> fileHeaders) →
       (obj_entries fileDiffs).*1 = fileName <$> fileHeaders
       ∧ take (first_index diffStr fileHeaders) diffStr
           ++ concat (obj_entries fileDiffs).*2 = diffStr).
Proof.
  intros Hhs Hnd Hproto.
  exists (segments diffStr fileHeaders).
  assert (Hw : write_all (segments diffStr fileHeaders) []
               = segments diffStr fileHeaders).
  { rewrite write_all_fresh; [done | | |].
    - by rewrite segments_keys.
    - by rewrite segments_keys.
    - intros k _. apply not_elem_of_nil. }
  split_and!.
  - by rewrite (splitDiffByFiles_write_all _ _ Hhs), Hw.
  - by apply fileHeaders_of_count.
  - rewrite obj_entries_length, <- (fileHeaders_of_count _ _ Hhs).
    by rewrite <- (length_fmap fst), segments_keys, length_fmap.
  - intros Hidx.
    rewrite obj_entries_creation_order by (by rewrite segments_keys).
    split; [apply segments_keys|].
    rewrite (segments_concat _ 0) by (by apply fileHeaders_of_chain).
    apply take_drop.
Qed.

(** * The parser: no reference dangles, every line is consumed *)

Lemma refs_in_mono (h h' : list DiffChunk) (d : FileDiffOf nat) :
  length h ≤ length h' → refs_in h d → refs_in h' d.
Proof.
  intros Hle Hrefs. unfold refs_in.
  eapply Forall_impl; [exact Hrefs|]. intros r Hr. simpl in Hr. lia.
Qed.

Lemma state_ok_initial : state_ok initial_state.
Proof. split; simpl; [done | done | constructor]. Qed.

Lemma state_ok_set_currentDiff st d d' :
  state_ok st → currentDiff st = Some d → chunks d' = chunks d →
  state_ok (set_currentDiff d' st).
Proof.
  intros [Hc Hcur Hds] Hd Hch. split; simpl; [done | | done].
  intros ? [= <-]. unfold refs_in. rewrite Hch. by apply Hcur.
Qed.

Lemma update_chunk_ok st r f :
  state_ok st → currentChunk st = Some r →
  ∃ st', update_chunk r f st = Some st' ∧ state_ok st'.
Proof.
  intros [Hc Hcur Hds] Hr. unfold update_chunk.
  destruct (lookup_lt_is_Some_2 (store st) r) as [c Hlk]; [by apply Hc|].
  rewrite Hlk. simpl. eexists. split; [done|].
  split; simpl.
  - intros r' Hr'. rewrite length_insert. by apply Hc.
  - intros d Hd. eapply refs_in_mono; [|by apply Hcur].
    by rewrite length_insert.
  - eapply Forall_impl; [exact Hds|]. intros d.
    apply refs_in_mono. by rewrite length_insert.
Qed.

Lemma content_line_ok st r line :
  state_ok st → currentChunk st = Some r →
  ∃ st', content_line r line st = Some st' ∧ state_ok st'.
Proof.
  intros Hok Hr. unfold content_line.
  repeat case_match; eauto using update_chunk_ok.
Qed.

Lemma hunk_line_ok st d line :
  state_ok st → currentDiff st = Some d → state_ok (hunk_line d line st).
Proof.
  intros [Hc Hcur Hds] Hd. unfold hunk_line.
  destruct (hunk_match line) as [g|]; [|done].
  split; simpl.
  - intros r [= <-]. rewrite length_app. simpl. lia.
  - intros d' [= <-]. unfold refs_in. simpl.
    apply Forall_app. split.
    + eapply Forall_impl; [by apply Hcur|].
      intros r Hr. simpl in Hr. rewrite length_app. lia.
    + constructor; [|constructor]. rewrite length_app. simpl. lia.
  - eapply Forall_impl; [exact Hds|]. intros d'.
    apply refs_in_mono. rewrite length_app. lia.
Qed.

Lemma parse_line_ok st line :
  state_ok st → ∃ st', parse_line st line = Some st' ∧ state_ok st'.
Proof.
  intros Hok. unfold parse_line.
  destruct (startsWith line (lit "diff --git ")).
  { eexists. split; [done|]. destruct Hok as [Hc Hcur Hds].
    split; simpl; [done | by intros ? [= <-]; constructor |].
    destruct (currentDiff st) as [d|] eqn:Hd; [|done].
    apply Forall_app. split; [done|]. constructor; [by apply Hcur | constructor]. }
  destruct (currentDiff st) as [d|] eqn:Hd; [|by eauto].
  repeat (case_match;
          [eexists; split; [done|];
           first [ by eapply state_ok_set_currentDiff
                 | by apply hunk_line_ok
                 | done ] |]).
  destruct (currentChunk st) as [r|] eqn:Hr; [|by eauto].
  by apply content_line_ok.
Qed.

Lemma parse_lines_ok ls st :
  state_ok st → ∃ st', parse_lines st ls = Some st' ∧ state_ok st'.
Proof.
  revert st. induction ls as [|line ls IH]; intros st Hok; simpl; [by eauto|].
  destruct (parse_line_ok st line Hok) as (st1 & -> & Hok1). simpl.
  by apply IH.
Qed.

Lemma resolve_ok h d : refs_in h d → is_Some (resolve h d).
Proof.
  intros Hrefs. unfold resolve.
  destruct (mapM (λ r, h !! r) (chunks d)) as [cs|] eqn:Hm; [by eexists|].
  assert (His : is_Some (mapM (λ r, h !! r) (chunks d))).
  { apply mapM_is_Some. eapply Forall_impl; [exact Hrefs|].
    intros r Hr. by apply lookup_lt_is_Some_2. }
  rewrite Hm in His. by destruct His.
Qed.

Lemma finish_ok st : state_ok st → is_Some (finish st).
Proof.
  intros [Hc Hcur Hds]. unfold finish. apply mapM_is_Some.
  assert (Hall : Forall (refs_in (store st))
                   (match currentDiff st with
                    | Some d => diffs st ++ [d]
                    | None => diffs st
                    end)).
  { destruct (currentDiff st) as [d|]; [|done].
    apply Forall_app. split; [done|]. constructor; [by apply Hcur | constructor]. }
  eapply Forall_impl; [exact Hall|]. intros d. apply resolve_ok.
Qed.

Lemma parseDiff_total diffStr : is_Some (parseDiff diffStr).
Proof.
  unfold parseDiff.
  destruct (parse_lines_ok (split_lines diffStr) initial_state state_ok_initial)
    as (st & -> & Hok).
  simpl. by apply finish_ok.
Qed.

Lemma splitDiffByFiles_total diffStr : is_Some (splitDiffByFiles diffStr).
Proof.
  destruct (fileHeaders_of_total diffStr) as [hs Hhs].
  rewrite (splitDiffByFiles_write_all _ _ Hhs). by eexists.
Qed.

(** C6.  On every string, [splitDiffByFiles] and [parseDiff] return a
    value: the loop over the matches ends within its fuel, no property of
    a missing header is read, and no chunk reference dangles. *)
Theorem segmenter_and_parser_total (diffStr : jsstring) :
  (∃ fileDiffs, splitDiffByFiles diffStr = Some fileDiffs)
  ∧ (∃ diffs, parseDiff diffStr = Some diffs).
Proof.
  split; [apply splitDiffByFiles_total | apply parseDiff_total].
Qed.

(** * The parser: malformed hunk headers and content lines *)

Lemma startsWith_head_differs line p q :
  startsWith line p = true → head_differs p q = true →
  startsWith line q = false.
Proof.
  destruct p as [|c p], q as [|d q]; simpl; try done.
  destruct line as [|e line]; [done|].
  destruct (N.eqb_spec c e) as [->|]; [|done].
  intros _. destruct (N.eqb_spec e d) as [->|]; [done|].
  intros _. by destruct (N.eqb_spec d e) as [->|].
Qed.

Ltac prefix_false line p H q :=
  rewrite (startsWith_head_differs line p q H eq_refl).

Lemma parse_lines_app st l1 l2 :
  parse_lines st (l1 ++ l2) = parse_lines st l1 ≫= λ st', parse_lines st' l2.
Proof.
  revert st. induction l1 as [|l l1 IH]; intros st; simpl; [done|].
  destruct (parse_line st l) as [st1|]; simpl; [apply IH | done].
Qed.

(** A malformed hunk header changes nothing. *)
Lemma parse_line_malformed st line :
  malformed_header line → parse_line st line = Some st.
Proof.
  intros [Hat Hno]. unfold parse_line.
  prefix_false line (lit "@@ ") Hat (lit "diff --git ").
  destruct (currentDiff st) as [d|]; [|done].
  prefix_false line (lit "@@ ") Hat (lit "--- a/").
  prefix_false line (lit "@@ ") Hat (lit "+++ b/").
  prefix_false line (lit "@@ ") Hat (lit "+++ /dev/null").
  prefix_false line (lit "@@ ") Hat (lit "--- /dev/null").
  prefix_false line (lit "@@ ") Hat (lit "index ").
  prefix_false line (lit "@@ ") Hat (lit "new file mode ").
  prefix_false line (lit "@@ ") Hat (lit "deleted file mode ").
  rewrite Hat. simpl. unfold hunk_line. by rewrite Hno.
Qed.

(** Until a hunk header is recognized, a parser that has opened no hunk
    opens none and stores nothing. *)
Lemma parse_line_no_chunk st line :
  currentChunk st = None →
  (startsWith line (lit "@@ ") = true → hunk_match line = None) →
  ∃ st', parse_line st line = Some st'
         ∧ store st' = store st ∧ currentChunk st' = None.
Proof.
  intros Hnone Hline. unfold parse_line.
  destruct (startsWith line (lit "diff --git ")); [by eexists|].
  destruct (currentDiff st) as [d|]; [|by eexists].
  repeat (case_match; [by eexists|]).
  destruct (startsWith line (lit "@@ ")) eqn:Hat.
  - unfold hunk_line. rewrite Hline by done. by eexists.
  - rewrite Hnone. by eexists.
Qed.

Lemma parse_lines_no_chunk ls st :
  currentChunk st = None → no_hunk_header ls →
  ∃ st', parse_lines st ls = Some st'
         ∧ store st' = store st ∧ currentChunk st' = None.
Proof.
  revert st. induction ls as [|l ls IH]; intros st Hnone Hls; simpl.
  - by eexists.
  - apply Forall_cons in Hls as [Hl Hls].
    destruct (parse_line_no_chunk st l Hnone Hl) as (st1 & -> & Hs1 & Hc1).
    simpl. destruct (IH st1 Hc1 Hls) as (st' & -> & Hs' & Hc').
    eexists. split; [done|]. split; [congruence | done].
Qed.

(** C3, as stated, fails: after a hunk has been opened, the lines that
    follow a malformed header are appended to that hunk. *)
Lemma skips_after_malformed_fails :
  malformed_header (lit "@@ oops")
  ∧ ¬ skips_after_malformed hunk_then_bad_header (lit "@@ oops") [lit "+b"].
Proof.
  split; [by vm_compute|].
  intros Hskip.
  destruct (parse_lines initial_state hunk_then_bad_header) as [st|] eqn:H1;
    [|by vm_compute in H1].
  destruct (parse_lines st [lit "@@ oops"; lit "+b"]) as [st'|] eqn:H2.
  - specialize (Hskip st st' H1 H2).
    vm_compute in H1. injection H1 as <-.
    vm_compute in H2. injection H2 as <-.
    vm_compute in Hskip. discriminate Hskip.
  - vm_compute in H1. injection H1 as <-. by vm_compute in H2.
Qed.

(** [currentChunk] outlives its file: a content line met in the next file
    before any hunk header is appended to the last chunk of the file
    before. *)
Example content_line_after_next_file_header :
  parseDiff (lit "diff --git a/x b/x" ++ nl ++ lit "@@ -1 +1 @@" ++ nl
             ++ lit "+a" ++ nl ++ lit "diff --git a/y b/y" ++ nl
             ++ lit "+late")
  = Some [{| oldFile := []; newFile := []; isDeleted := false; isNew := false;
             chunks :=
               [{| oldStart := Finite 1; oldLines := Finite 1;
                   newStart := Finite 3; newLines := Finite 1;
                   lines :=
                     [{| type := added; content := lit "a";
                         oldLineNumber := None;
                         newLineNumber := Some (Finite 1) |};
                      {| type := added; content := lit "late";
                         oldLineNumber := None;
                         newLineNumber := Some (Finite 2) |}]
                |}] |};
          {| oldFile := []; newFile := []; isDeleted := false; isNew := false;
             chunks := [] |}].
Proof. vm_compute. reflexivity. Qed.

(** C3, amended.  A malformed hunk header opens no hunk and leaves every
    variable of the parser as it was, so the rest of the input is parsed as
    if the line were absent.  When no hunk has been opened before it, the
    lines that follow are appended to no hunk until a hunk header is
    recognized. *)
Theorem malformed_hunk_header_skipped (st : ParserState) (line : jsstring) :
  malformed_header line →
  parse_line st line = Some st
  ∧ (∀ st0 before after,
       parse_lines st0 before = Some st →
       parse_lines st0 (before ++ line :: after)
       = parse_lines st0 (before ++ after))
  ∧ (currentChunk st = None →
     ∀ after, no_hunk_header after →
       ∃ st', parse_lines st (line :: after) = Some st'
              ∧ store st' = store st ∧ currentChunk st' = None).
Proof.
  intros Hbad. pose proof (parse_line_malformed st line Hbad) as Hline.
  split_and!; [done | |].
  - intros st0 before after Hbefore.
    rewrite !parse_lines_app, Hbefore. simpl. by rewrite Hline.
  - intros Hnone after Hafter. simpl. rewrite Hline. simpl.
    by apply parse_lines_no_chunk.
Qed.

Lemma update_chunk_Some st r c f :
  store st !! r = Some c →
  update_chunk r f st = Some (set_store (<[r := f c]> (store st)) st).
Proof. intros Hc. unfold update_chunk. by rewrite Hc. Qed.

(** C4, as stated, fails: with a hunk open, a removed line whose text
    starts with [-- a/] is read as the old file name and recorded in no
    hunk. *)
Lemma classifies_by_marker_fails :
  ∃ st,
    parse_lines initial_state [lit "diff --git a/x b/x"; lit "@@ -1 +1 @@"]
    = Some st
    ∧ ¬ classifies_by_marker st (lit "--- a/foo").
Proof.
  eexists. split; [vm_compute; reflexivity|].
  intros Hcl.
  destruct (Hcl _ 0 eq_refl eq_refl) as (_ & Hrem & _); [simpl; lia|].
  destruct Hrem as (c & st' & c' & dl & Hc & Hst' & Hc' & Hl & _);
    [by vm_compute|].
  vm_compute in Hc. injection Hc as <-.
  vm_compute in Hst'. injection Hst' as <-.
  vm_compute in Hc'. injection Hc' as <-.
  simpl in Hl. discriminate Hl.
Qed.

Lemma records_line_intro st r c line f t dl :
  store st !! r = Some c →
  parse_line st line = Some (set_store (<[r := f c]> (store st)) st) →
  lines (f c) = lines c ++ [dl] →
  type dl = t → content dl = substring_from line 1 →
  records_line st r line t.
Proof.
  intros Hc Hline Hl Ht Hcont.
  exists c, (set_store (<[r := f c]> (store st)) st), (f c), dl.
  split_and!; try done. simpl.
  apply list_lookup_insert_eq. by eapply lookup_lt_Some.
Qed.

(** C4, amended.  With a hunk open, a line that begins with [+] and not
    with [+++ b/] or [+++ /dev/null] is recorded in the current chunk as an
    added line without its marker; a line that begins with [-] and not
    with [--- a/] or [--- /dev/null] is recorded as a removed line without
    its marker; a line that begins with a blank is recorded as a context
    line without its marker. *)
Theorem content_line_classified (st : ParserState) (d : FileDiffOf nat)
    (r : nat) (c : DiffChunk) (line : jsstring) :
  currentDiff st = Some d → currentChunk st = Some r →
  store st !! r = Some c →
  (startsWith line (lit "+") = true →
   startsWith line (lit "+++ b/") = false →
   startsWith line (lit "+++ /dev/null") = false →
   parse_line st line
   = Some (set_store
             (<[r := push_added (substring_from line 1) c]> (store st)) st)
   ∧ records_line st r line added)
  ∧ (startsWith line (lit "-") = true →
     startsWith line (lit "--- a/") = false →
     startsWith line (lit "--- /dev/null") = false →
     parse_line st line
     = Some (set_store
               (<[r := push_removed (substring_from line 1) c]> (store st)) st)
     ∧ records_line st r line removed)
  ∧ (startsWith line (lit " ") = true →
     parse_line st line
     = Some (set_store
               (<[r := push_context (substring_from line 1) c]> (store st)) st)
     ∧ records_line st r line context).
Proof.
  intros Hd Hr Hc. split_and!.
  - intros Hm Hb Hnull.
    assert (Hline : parse_line st line
      = Some (set_store
                (<[r := push_added (substring_from line 1) c]> (store st)) st)).
    { unfold parse_line.
      prefix_false line (lit "+") Hm (lit "diff --git ").
      rewrite Hd, Hb, Hnull.
      prefix_false line (lit "+") Hm (lit "--- a/").
      prefix_false line (lit "+") Hm (lit "--- /dev/null").
      prefix_false line (lit "+") Hm (lit "index ").
      prefix_false line (lit "+") Hm (lit "new file mode ").
      prefix_false line (lit "+") Hm (lit "deleted file mode ").
      prefix_false line (lit "+") Hm (lit "@@ ").
      rewrite Hr. simpl. unfold content_line. rewrite Hm.
      by apply update_chunk_Some. }
    split; [done|]. by eapply records_line_intro.
  - intros Hm Ha Hnull.
    assert (Hline : parse_line st line
      = Some (set_store
                (<[r := push_removed (substring_from line 1) c]> (store st)) st)).
    { unfold parse_line.
      prefix_false line (lit "-") Hm (lit "diff --git ").
      rewrite Hd, Ha, Hnull.
      prefix_false line (lit "-") Hm (lit "+++ b/").
      prefix_false line (lit "-") Hm (lit "+++ /dev/null").
      prefix_false line (lit "-") Hm (lit "index ").
      prefix_false line (lit "-") Hm (lit "new file mode ").
      prefix_false line (lit "-") Hm (lit "deleted file mode ").
      prefix_false line (lit "-") Hm (lit "@@ ").
      rewrite Hr. simpl. unfold content_line.
      prefix_false line (lit "-") Hm (lit "+").
      rewrite Hm. by apply update_chunk_Some. }
    split; [done|]. by eapply records_line_intro.
  - intros Hm.
    assert (Hline : parse_line st line
      = Some (set_store
                (<[r := push_context (substring_from line 1) c]> (store st)) st)).
    { unfold parse_line.
      prefix_false line (lit " ") Hm (lit "diff --git ").
      rewrite Hd.
      prefix_false line (lit " ") Hm (lit "--- a/").
      prefix_false line (lit " ") Hm (lit "+++ b/").
      prefix_false line (lit " ") Hm (lit "+++ /dev/null").
      prefix_false line (lit " ") Hm (lit "--- /dev/null").
      prefix_false line (lit " ") Hm (lit "index ").
      prefix_false line (lit " ") Hm (lit "new file mode ").
      prefix_false line (lit " ") Hm (lit "deleted file mode ").
      prefix_false line (lit " ") Hm (lit "@@ ").
      rewrite Hr. simpl. unfold content_line.
      prefix_false line (lit " ") Hm (lit "+").
      prefix_false line (lit " ") Hm (lit "-").
      rewrite Hm. by apply update_chunk_Some. }
    split; [done|]. by eapply records_line_intro.
Qed.

(** * The summarizer *)

Lemma Zsum_snoc l x : Zsum (l ++ [x]) = (Zsum l + x)%Z.
Proof.
  unfold Zsum. induction l as [|y l IH]; simpl; [lia|]. rewrite IH. lia.
Qed.

(** The loop over the files keeps the totals equal to the sums over the
    records written so far, and writes one record per file. *)
Lemma summarize_file_fold ds ti td fcs ti' td' fcs' :
  fold_left summarize_file ds (ti, td, fcs) = (ti', td', fcs') →
  ti = Zsum (f_insertions <$> fcs) → td = Zsum (f_deletions <$> fcs) →
  ti' = Zsum (f_insertions <$> fcs')
  ∧ td' = Zsum (f_deletions <$> fcs')
  ∧ ∃ new, fcs' = fcs ++ new ∧ Forall2 reported_under ds new.
Proof.
  revert ti td fcs.
  induction ds as [|d ds IH]; intros ti td fcs; simpl.
  - intros [= <- <- <-] Hi Hd. split_and!; [done | done |].
    exists []. by rewrite app_nil_r.
  - destruct (fold_left count_chunk (chunks d) (0%Z, 0%Z)) as [fi fd].
    intros Hfold Hi Hd.
    apply IH in Hfold as (Hi' & Hd' & new & -> & Hnew).
    + split_and!; [done | done |].
      eexists (_ :: new). split; [by rewrite <- app_assoc|].
      constructor; [|done].
      unfold reported_under. simpl. by destruct (isDeleted d).
    + rewrite fmap_app, list_fmap_singleton, Zsum_snoc. simpl. by rewrite Hi.
    + rewrite fmap_app, list_fmap_singleton, Zsum_snoc. simpl. by rewrite Hd.
Qed.

Lemma summarize_spec ds :
  let sm := summarize ds in
  insertions sm = Zsum (f_insertions <$> fileChanges sm)
  ∧ deletions sm = Zsum (f_deletions <$> fileChanges sm)
  ∧ Forall2 reported_under ds (fileChanges sm)
  ∧ filesChanged sm = Z.of_nat (length ds).
Proof.
  unfold summarize.
  destruct (fold_left summarize_file ds (0%Z, 0%Z, [])) as [[ti td] fcs] eqn:Hf.
  apply summarize_file_fold in Hf as (Hi & Hd & new & -> & Hnew); [|done..].
  simpl. done.
Qed.

(** C5.  In the summary of any input, [insertions] is the sum of the
    insertions of the records of [fileChanges], [deletions] the sum of
    their deletions, and [filesChanged] their number. *)
Theorem summary_consistent (diffStr : jsstring) :
  ∃ sm,
    summarizeDiff diffStr = Some sm
    ∧ insertions sm = Zsum (f_insertions <$> fileChanges sm)
    ∧ deletions sm = Zsum (f_deletions <$> fileChanges sm)
    ∧ filesChanged sm = Z.of_nat (length (fileChanges sm)).
Proof.
  unfold summarizeDiff.
  destruct (parseDiff_total diffStr) as [ds ->]. simpl.
  eexists. split; [done|].
  destruct (summarize_spec ds) as (Hi & Hd & Hrep & Hn).
  split_and!; [done | done |].
  by rewrite Hn, (Forall2_length _ _ _ Hrep).
Qed.

(** C7.  In the summary of any input there is one record per parsed file,
    in order, and its [file] is the old path of the file when the file is
    marked deleted and its new path otherwise. *)
Theorem summary_file_name (diffStr : jsstring) :
  ∃ ds sm,
    parseDiff diffStr = Some ds
    ∧ summarizeDiff diffStr = Some sm
    ∧ Forall2 reported_under ds (fileChanges sm).
Proof.
  unfold summarizeDiff.
  destruct (parseDiff_total diffStr) as [ds ->]. simpl.
  exists ds, (summarize ds). split_and!; [done | done |].
  by destruct (summarize_spec ds) as (_ & _ & Hrep & _).
Qed.

(** C9.  On the empty string the segmenter returns the empty object, the
    parser the empty array, and the summarizer zero counts and no record. *)
Theorem empty_input :
  splitDiffByFiles [] = Some []
  ∧ parseDiff [] = Some []
  ∧ summarizeDiff []
    = Some {| filesChanged := 0; insertions := 0; deletions := 0;
              fileChanges := [] |}.
Proof. split_and!; reflexivity. Qed.

(** * The segmenter: a header needs its line feed *)

(** Every header of a chain is a match whose last code unit is a line
    feed of the input. *)
Lemma header_chain_line_feed diffStr lastIndex hs :
  header_chain diffStr lastIndex hs →
  Forall (λ h, 0 < length (m0 (match_ h))
               ∧ diffStr !! (index h + length (m0 (match_ h)) - 1) = Some LF)
         hs.
Proof.
  induction 1 as [|li h hs Hle Hlen Hdrop Hm0 Hch IH]; constructor; [|done].
  revert Hdrop Hm0.
  generalize (m0 (match_ h)); intros m Hdrop Hm0.
  rewrite !app_assoc in Hm0.
  set (body := ((lit "diff --git a/" ++ fileName h) ++ lit " b/")
               ++ m2 (match_ h)) in Hm0.
  assert (Hlenm : length m = S (length body)).
  { rewrite Hm0, length_app. simpl. lia. }
  split; [lia|].
  replace (index h + length m - 1) with (index h + length body) by lia.
  rewrite <- lookup_drop, Hdrop, lookup_app_l by lia.
  rewrite Hm0, lookup_app_r by lia.
  by replace (length body - length body) with 0 by lia.
Qed.

(** C10.  A header is recognized only with the line feed that ends its
    line: the headers found are as many as the lines that match the
    pattern and end in a line feed, and whatever follows the last line feed
    of the input, a header included, holds no match, so every recognized
    header ends inside the text before it; an input without any line feed
    gives the empty object. *)
Theorem header_needs_line_feed (pre last : jsstring) :
  LF ∉ last →
  ∃ fileHeaders fileDiffs,
    fileHeaders_of (pre ++ last) = Some fileHeaders
    ∧ splitDiffByFiles (pre ++ last) = Some fileDiffs
    ∧ length fileHeaders = header_line_count (pre ++ last)
    ∧ Forall (λ h, index h + length (m0 (match_ h)) ≤ length pre) fileHeaders
    ∧ (pre = [] → fileHeaders = [] ∧ fileDiffs = []).
Proof.
  intros Hlast.
  destruct (fileHeaders_of_total (pre ++ last)) as [hs Hhs].
  exists hs, (write_all (segments (pre ++ last) hs) []).
  assert (Hin : Forall (λ h, index h + length (m0 (match_ h)) ≤ length pre) hs).
  { eapply Forall_impl;
      [apply (header_chain_line_feed (pre ++ last) 0), fileHeaders_of_chain, Hhs|].
    intros h [Hpos Hlf]. simpl in *.
    destruct (decide (index h + length (m0 (match_ h)) ≤ length pre)) as [|Hgt];
      [done|].
    exfalso. apply Hlast.
    rewrite lookup_app_r in Hlf by lia.
    by eapply list_elem_of_lookup_2. }
  split_and!; [done | by apply splitDiffByFiles_write_all
              | by apply fileHeaders_of_count | done |].
  intros ->. destruct hs as [|h hs]; [done|].
  exfalso. apply Forall_cons in Hin as [Hh _].
  apply fileHeaders_of_chain, (header_chain_line_feed _ 0) in Hhs.
  apply Forall_cons in Hhs as [[Hpos _] _]. simpl in Hh. lia.
Qed.

(** * The parser: hunk headers *)

Section GreedyFacts.
Context {R : Type}.

(** The greedy run takes a maximal run when the continuation accepts it. *)
Lemma re_greedy_run p acc ds rest (k : jsstring → jsstring → option R) r :
  Forall (λ c, p c = true) ds →
  (∀ c rest', rest = c :: rest' → p c = false) →
  k (acc ++ ds) rest = Some r →
  re_greedy p acc (ds ++ rest) k = Some r.
Proof.
  intros Hds Hrest. revert acc.
  induction Hds as [|d ds Hd Hds IH]; intros acc Hk; simpl.
  - rewrite app_nil_r in Hk.
    destruct rest as [|c rest']; simpl; [done|].
    by rewrite (Hrest c rest' eq_refl).
  - rewrite Hd, (IH (acc ++ [d])); [done|].
    by rewrite <- app_assoc.
Qed.

(** What a successful greedy run took, and that taking one more code unit
    had failed. *)
Lemma re_greedy_Some p acc s (k : jsstring → jsstring → option R) r :
  re_greedy p acc s k = Some r →
  ∃ mid s',
    s = mid ++ s' ∧ Forall (λ c, p c = true) mid
    ∧ k (acc ++ mid) s' = Some r
    ∧ (∀ c s'', s' = c :: s'' → p c = true →
       re_greedy p ((acc ++ mid) ++ [c]) s'' k = None).
Proof.
  revert acc. induction s as [|c s IH]; intros acc; simpl.
  - intros Hk. exists [], []. rewrite !app_nil_r.
    split_and!; first [done | constructor].
  - destruct (p c) eqn:Hp.
    + destruct (re_greedy p (acc ++ [c]) s k) as [r0|] eqn:Hrec.
      * intros [= <-].
        apply IH in Hrec as (mid & s' & -> & Hmid & Hk & Hmax).
        exists (c :: mid), s'.
        rewrite <- app_assoc in Hk, Hmax.
        split_and!; first [done | by constructor].
      * intros Hk. exists [], (c :: s). rewrite !app_nil_r.
        split_and!; first [done | constructor | idtac].
        by intros c' s'' [= <- <-] _.
    + intros Hk. exists [], (c :: s). rewrite !app_nil_r.
      split_and!; first [done | constructor | idtac].
      intros c' s'' [= <- <-]. congruence.
Qed.

Lemma re_opt_take c s' (k : jsstring → option R) r :
  k s' = Some r → re_opt c (c :: s') k = Some r.
Proof. intros Hk. unfold re_opt. by rewrite N.eqb_refl, Hk. Qed.

Lemma re_opt_skip c d s' (k : jsstring → option R) :
  c ≠ d → re_opt c (d :: s') k = k (d :: s').
Proof.
  intros Hne. unfold re_opt. by destruct (N.eqb_spec c d).
Qed.

Lemma re_opt_Some c s (k : jsstring → option R) r :
  re_opt c s k = Some r →
  (∃ s', s = c :: s' ∧ k s' = Some r) ∨ k s = Some r.
Proof.
  unfold re_opt. destruct s as [|d s']; [by right|].
  destruct (N.eqb_spec c d) as [<-|_]; [|by right].
  destruct (k s') as [r0|] eqn:Hk; [|by right].
  intros [= <-]. left. by exists s'.
Qed.

Section Range.
Variable k : jsstring → jsstring → jsstring → option R.

(** What follows a side of the header decides alone whether the
    continuation accepts, and it starts with neither a digit nor a comma. *)
Hypothesis k_uniform :
  ∀ a b a' b' s, is_Some (k a b s) → is_Some (k a' b' s).
Hypothesis k_head :
  ∀ a b s, is_Some (k a b s) →
           ∃ c s', s = c :: s' ∧ is_digit c = false ∧ c ≠ comma.

(** After the first number, a text that the continuation accepts is
    reached through the optional comma and the empty second number. *)
Lemma after_number_run a b g1 e s4' r :
  is_digit e = false → e ≠ comma →
  k a b (e :: s4') = Some r →
  ∃ r', re_opt comma (e :: s4')
          (λ s3, re_greedy is_digit [] s3 (λ g2 s4, k g1 g2 s4)) = Some r'.
Proof.
  intros He Hec Hk.
  destruct (k_uniform _ _ g1 [] _ (mk_is_Some _ _ Hk)) as [r' Hr'].
  exists r'. rewrite re_opt_skip by done.
  by apply (re_greedy_run is_digit [] [] (e :: s4')); [| intros ?? [= <- _] |].
Qed.

Lemma re_range_run g1 n s4 r :
  digits g1 → g1 ≠ [] → digits (default [] n) →
  k g1 (default [] n) s4 = Some r →
  re_range (g1 ++ count_suffix n ++ s4) k = Some r.
Proof.
  intros Hg1 Hne Hn Hk.
  destruct (k_head _ _ _ (mk_is_Some _ _ Hk)) as (e & s4' & -> & He & Hec).
  destruct g1 as [|c g1]; [done|]. apply Forall_cons in Hg1 as [Hc Hg1].
  unfold re_range, re_plus. cbn [app]. rewrite Hc.
  apply re_greedy_run; [done | |].
  { destruct n as [ds|]; cbn [count_suffix app]; by intros c' rest' [= <- _]. }
  cbn [app]. destruct n as [ds|]; cbn [count_suffix app default] in *.
  - apply re_opt_take.
    by apply (re_greedy_run is_digit [] ds (e :: s4')); [| intros ?? [= <- _] |].
  - rewrite re_opt_skip by done.
    by apply (re_greedy_run is_digit [] [] (e :: s4')); [| intros ?? [= <- _] |].
Qed.

Lemma re_range_Some s r :
  re_range s k = Some r →
  ∃ g1 n s4,
    s = g1 ++ count_suffix n ++ s4
    ∧ digits g1 ∧ g1 ≠ [] ∧ digits (default [] n)
    ∧ k g1 (default [] n) s4 = Some r.
Proof.
  unfold re_range, re_plus.
  destruct s as [|c s]; [done|].
  destruct (is_digit c) eqn:Hc; [|done].
  intros (mid & s2 & -> & Hmid & Hk & Hmax)%re_greedy_Some.
  cbn [app] in Hk, Hmax.
  assert (Hg1 : digits (c :: mid)) by (by constructor).
  apply re_opt_Some in Hk as [(s3 & -> & Hk)|Hk].
  - apply re_greedy_Some in Hk as (g2 & s4 & -> & Hg2 & Hk & _).
    exists (c :: mid), (Some g2), s4.
    split_and!; first [done | by cbn [app count_suffix]].
  - apply re_greedy_Some in Hk as (g2 & s4 & -> & Hg2 & Hk & _).
    cbn [app] in Hk.
    destruct g2 as [|x g2].
    + exists (c :: mid), None, s4.
      split_and!; first [done | constructor].
    + exfalso. apply Forall_cons in Hg2 as [Hx Hg2].
      destruct (k_head _ _ _ (mk_is_Some _ _ Hk)) as (e & s4' & -> & He & Hec).
      specialize (Hmax x (g2 ++ e :: s4') eq_refl Hx).
      destruct (after_number_run _ _ ((c :: mid ++ [x]) ++ g2) _ _ _ He Hec Hk)
        as [r' Hr'].
      by rewrite (re_greedy_run is_digit _ g2 (e :: s4') _ r') in Hmax;
        [| | intros ?? [= <- _] |].
Qed.
End Range.
End GreedyFacts.

Lemma re_search_leftmost {R : Type} (at_pos : jsstring → option R) s i j r :
  re_search at_pos s i = Some (j, r) →
  ∃ pre s',
    s = pre ++ s' ∧ j = i + length pre ∧ at_pos s' = Some r
    ∧ ∀ n, n < length pre → at_pos (drop n s) = None.
Proof.
  revert i. induction s as [|c s IH]; intros i; simpl.
  - destruct (at_pos []) eqn:Hat; [|done].
    intros [= <- <-]. exists [], [].
    split_and!; [done | simpl; lia | done | simpl; lia].
  - destruct (at_pos (c :: s)) eqn:Hat.
    + intros [= <- <-]. exists [], (c :: s).
      split_and!; [done | simpl; lia | done | simpl; lia].
    + intros (pre & s' & -> & -> & Hr & Hmin)%IH.
      exists (c :: pre), s'.
      split_and!; [done | simpl; lia | done |].
      intros [|n] Hn; [done|]. simpl in *. apply Hmin. lia.
Qed.

Lemma re_search_here {R : Type} (at_pos : jsstring → option R) s i r :
  at_pos s = Some r → re_search at_pos s i = Some (i, r).
Proof. intros Hat. destruct s; simpl; by rewrite Hat. Qed.

(** The end of the hunk pattern, [ @@], accepts whatever the captures
    are, and starts with a blank. *)
Lemma closing_uniform (g1 g2 a b a' b' s : jsstring) :
  is_Some (hunk_closing g1 g2 a b s) → is_Some (hunk_closing g1 g2 a' b' s).
Proof.
  unfold hunk_closing. intros [r (s' & -> & _)%re_lit_Some].
  eexists. apply re_lit_Some. by exists s'.
Qed.

Lemma closing_head (g1 g2 a b s : jsstring) :
  is_Some (hunk_closing g1 g2 a b s) →
  ∃ c s', s = c :: s' ∧ is_digit c = false ∧ c ≠ comma.
Proof.
  unfold hunk_closing. intros [r (s' & -> & _)%re_lit_Some].
  exists 32%N, (lit "@@" ++ s'). by split_and!.
Qed.

(** So does the new side of the pattern, from [ +] on. *)
Lemma new_side_uniform (a b a' b' s : jsstring) :
  is_Some (hunk_new_side a b s) → is_Some (hunk_new_side a' b' s).
Proof.
  unfold hunk_new_side. intros [r (s5 & -> & Hr)%re_lit_Some].
  apply (re_range_Some (hunk_closing a b)) in Hr
    as (g3 & n & s8 & -> & Hg3 & Hne & Hn & Hk);
    [|exact (closing_uniform _ _) | exact (closing_head _ _)].
  assert (Hk' : is_Some (hunk_closing a' b' g3 (default [] n) s8)).
  { unfold hunk_closing in *. apply re_lit_Some in Hk as (s' & -> & _).
    eexists. apply re_lit_Some. by exists s'. }
  destruct Hk' as [r' Hr'].
  exists r'. apply re_lit_Some. eexists. split; [done|].
  by apply (re_range_run (hunk_closing a' b'));
    [exact (closing_head _ _) | ..].
Qed.

Lemma new_side_head (a b s : jsstring) :
  is_Some (hunk_new_side a b s) →
  ∃ c s', s = c :: s' ∧ is_digit c = false ∧ c ≠ comma.
Proof.
  unfold hunk_new_side. intros [r (s' & -> & _)%re_lit_Some].
  exists 32%N, (lit "+" ++ s'). by split_and!.
Qed.

(** The hunk pattern matches at the start of a text exactly when the text
    starts with a well-formed header, and the captures are the numbers of
    that header, empty where the header has none. *)
Lemma hunkPattern_at_Some s g1 g2 g3 g4 :
  hunkPattern_at s = Some (g1, g2, g3, g4) →
  ∃ ol nl tail,
    s = hunk_header g1 ol g3 nl tail
    ∧ well_formed_header g1 ol g3 nl
    ∧ g2 = default [] ol ∧ g4 = default [] nl.
Proof.
  unfold hunkPattern_at.
  intros (s1 & -> & H)%re_lit_Some.
  apply (re_range_Some hunk_new_side) in H
    as (os & ol & s4 & -> & Hos & Hosne & Hol & H);
    [|exact new_side_uniform | exact new_side_head].
  unfold hunk_new_side in H.
  apply re_lit_Some in H as (s5 & -> & H).
  apply (re_range_Some (hunk_closing os (default [] ol))) in H
    as (ns & nl & s8 & -> & Hns & Hnsne & Hnl & H);
    [|exact (closing_uniform _ _) | exact (closing_head _ _)].
  unfold hunk_closing in H.
  apply re_lit_Some in H as (tail & -> & H).
  injection H as <- <- <- <-.
  exists ol, nl, tail. unfold hunk_header, well_formed_header.
  by split_and!.
Qed.

Lemma hunkPattern_at_header os ol ns nl tail :
  well_formed_header os ol ns nl →
  hunkPattern_at (hunk_header os ol ns nl tail)
  = Some (os, default [] ol, ns, default [] nl).
Proof.
  intros (Hos & Hosne & Hns & Hnsne & Hol & Hnl).
  unfold hunkPattern_at, hunk_header.
  apply re_lit_Some. eexists. split; [done|].
  apply (re_range_run hunk_new_side);
    [exact new_side_head | done..|].
  unfold hunk_new_side.
  apply re_lit_Some. eexists. split; [done|].
  apply (re_range_run (hunk_closing os (default [] ol)));
    [exact (closing_head _ _) | done..|].
  unfold hunk_closing.
  apply re_lit_Some. by eexists.
Qed.

(** * Numbers *)

(** Every integer up to [2^53] is a double. *)
Lemma to_number_small z : (z ≤ max_exact)%Z → to_number z = Finite z.
Proof.
  intros Hz. unfold to_number.
  destruct (Z.ltb_spec z max_exact) as [|Hge]; [done|].
  assert (z = max_exact) as -> by lia. by vm_compute.
Qed.

Lemma increment_small z :
  (z + 1 ≤ max_exact)%Z → increment (Finite z) = Finite (z + 1).
Proof. apply to_number_small. Qed.

(** Above [2^53] an odd integer is no double: [parseInt] gives an even
    neighbour, [++] does not move [2^53], and a number of 310 digits is
    [Infinity]. *)
Example to_number_rounds :
  to_number 9007199254740993 = Finite 9007199254740992
  ∧ to_number 9007199254740995 = Finite 9007199254740996
  ∧ increment (Finite 9007199254740992) = Finite 9007199254740992
  ∧ increment (Finite 9007199254740994) = Finite 9007199254740996
  ∧ to_number (10 ^ 309) = Infinity.
Proof. by vm_compute. Qed.

(** From [2^53] on, [to_number n] is a significand [q] of 53 bits (or
    [2^53], the first of the next binade) times [2^e], no further from [n]
    than half of [2^e], with [q] even when it is just half away: the
    nearest double, ties to even. *)
Lemma to_number_nearest n :
  (max_exact ≤ n)%Z →
  ∃ q,
    (2 ^ 52 ≤ q ≤ 2 ^ 53)%Z
    ∧ (2 * Z.abs (q * 2 ^ (Z.log2 n - 52) - n) ≤ 2 ^ (Z.log2 n - 52))%Z
    ∧ ((2 * Z.abs (q * 2 ^ (Z.log2 n - 52) - n) = 2 ^ (Z.log2 n - 52))%Z →
       Z.even q = true)
    ∧ to_number n
      = if (q * 2 ^ (Z.log2 n - 52) <? 2 ^ 1024)%Z
        then Finite (q * 2 ^ (Z.log2 n - 52)) else Infinity.
Proof.
  intros Hn. unfold max_exact in Hn.
  assert (Hpos : (0 < n)%Z) by lia.
  destruct (Z.log2_spec n Hpos) as [Hlo Hhi].
  assert (H53 : (53 ≤ Z.log2 n)%Z).
  { apply Z.log2_le_pow2; [done|]. exact Hn. }
  set (e := (Z.log2 n - 52)%Z) in *.
  assert (He : (1 ≤ e)%Z) by (unfold e; lia).
  replace (Z.log2 n) with (e + 52)%Z in Hlo, Hhi by (unfold e; lia).
  replace (Z.succ (e + 52)) with (e + 53)%Z in Hhi by lia.
  rewrite Z.pow_add_r in Hlo, Hhi by lia.
  assert (HP : (0 < 2 ^ e)%Z) by (apply Z.pow_pos_nonneg; lia).
  assert (Hhalf : (2 ^ e = 2 * 2 ^ (e - 1))%Z).
  { rewrite <- Z.pow_succ_r by lia. f_equal. lia. }
  pose proof (Z.div_mod n (2 ^ e) ltac:(lia)) as Hdm.
  pose proof (Z.mod_pos_bound n (2 ^ e) HP) as Hr.
  assert (Hq1 : (2 ^ 52 ≤ n / 2 ^ e)%Z).
  { apply Z.div_le_lower_bound; [done|]. lia. }
  assert (Hq2 : (n / 2 ^ e < 2 ^ 53)%Z).
  { apply Z.div_lt_upper_bound; [done|]. lia. }
  unfold to_number, max_exact.
  destruct (Z.ltb_spec n (2 ^ 53)) as [|_]; [lia|].
  fold e.
  set (q := (n / 2 ^ e)%Z) in *. set (r := (n mod 2 ^ e)%Z) in *.
  set (P := (2 ^ e)%Z) in *. set (H := (2 ^ (e - 1))%Z) in *.
  destruct (Z.ltb_spec r H) as [Hlt|Hge].
  - exists q. split_and!; [lia | lia | lia | lia | done].
  - destruct (Z.ltb_spec H r) as [Hgt|Hle].
    + exists (q + 1)%Z. split_and!; [lia | lia | lia | lia | done].
    + assert (r = H) as Hrh by lia.
      destruct (Z.even q) eqn:Hev.
      * exists q. split_and!; [lia | lia | lia | done | done].
      * exists (q + 1)%Z. split_and!; [lia | lia | lia | | done].
        intros _. rewrite Z.even_add, Hev. done.
Qed.

Lemma parseInt_digits c ds :
  parseInt (c :: ds) = to_number (decimal (c :: ds)).
Proof. done. Qed.

Lemma count_or_one_small n :
  small_count n → count_or_one n = written_count n.
Proof.
  destruct n as [[|c ds]|]; [done | | done].
  intros Hn. by apply to_number_small.
Qed.

Lemma new_chunk_header os ol ns nl :
  os ≠ [] → ns ≠ [] →
  new_chunk (os, default [] ol, ns, default [] nl) = header_chunk os ol ns nl.
Proof.
  intros Hos Hns. unfold new_chunk, header_chunk.
  destruct os as [|? ?]; [done|]. destruct ns as [|? ?]; [done|].
  by destruct ol as [[|? ?]|], nl as [[|? ?]|].
Qed.

Lemma parse_line_hunk st d line :
  currentDiff st = Some d → startsWith line (lit "@@ ") = true →
  parse_line st line = Some (hunk_line d line st).
Proof.
  intros Hd Hat. unfold parse_line.
  prefix_false line (lit "@@ ") Hat (lit "diff --git ").
  rewrite Hd.
  prefix_false line (lit "@@ ") Hat (lit "--- a/").
  prefix_false line (lit "@@ ") Hat (lit "+++ b/").
  prefix_false line (lit "@@ ") Hat (lit "+++ /dev/null").
  prefix_false line (lit "@@ ") Hat (lit "--- /dev/null").
  prefix_false line (lit "@@ ") Hat (lit "index ").
  prefix_false line (lit "@@ ") Hat (lit "new file mode ").
  prefix_false line (lit "@@ ") Hat (lit "deleted file mode ").
  by rewrite Hat.
Qed.

(** C8, as stated, fails for a count above [2^53]: the header
    [@@ -1,9007199254740993 +1 @@] writes an odd integer that no double
    holds, and the chunk created gets the count 9007199254740992. *)
Lemma counts_are_written_fails :
  parse_line hunk_open_state (lit "@@ -1,9007199254740993 +1 @@")
  = Some (open_hunk
            {| oldFile := []; newFile := []; isDeleted := false;
               isNew := false; chunks := [0] |}
            {| oldStart := Finite 1; oldLines := Finite 9007199254740992;
               newStart := Finite 1; newLines := Finite 1; lines := [] |}
            hunk_open_state)
  ∧ ¬ counts_are_written hunk_open_state
        (lit "@@ -1,9007199254740993 +1 @@").
Proof.
  split; [by vm_compute|].
  intros Hcl.
  destruct (Hcl _ (lit "1") (Some (lit "9007199254740993")) (lit "1") None []
              eq_refl) as (st' & c & Hp & Hl & Ho & _).
  - unfold well_formed_header, digits. split_and!; try done;
      repeat constructor.
  - reflexivity.
  - vm_compute in Hp. injection Hp as <-.
    vm_compute in Hl. injection Hl as <-.
    vm_compute in Ho. discriminate Ho.
Qed.

(** C8, amended.  Every line the parser matches as a hunk header holds, at
    the leftmost place where the pattern matches, a header [@@ -os[,ol]
    +ns[,nl] @@] made of digits, and the chunk created has the starts [os]
    and [ns] as [parseInt] reads them, the count 1 on a side whose header
    has no count and otherwise the double nearest to the integer the count
    writes, which is that integer itself up to [2^53].  Every line that is
    such a header is matched that way. *)
Theorem hunk_header_counts (st : ParserState) (d : FileDiffOf nat)
    (line : jsstring) :
  currentDiff st = Some d →
  startsWith line (lit "@@ ") = true →
  (∀ g, hunk_match line = Some g →
     ∃ pre os ol ns nl tail,
       line = pre ++ hunk_header os ol ns nl tail
       ∧ well_formed_header os ol ns nl
       ∧ (∀ n, n < length pre → hunkPattern_at (drop n line) = None)
       ∧ g = (os, default [] ol, ns, default [] nl)
       ∧ parse_line st line
         = Some (open_hunk d (header_chunk os ol ns nl) st)
       ∧ (small_count ol →
          oldLines (header_chunk os ol ns nl) = written_count ol)
       ∧ (small_count nl →
          newLines (header_chunk os ol ns nl) = written_count nl))
  ∧ (∀ os ol ns nl tail,
       well_formed_header os ol ns nl →
       line = hunk_header os ol ns nl tail →
       parse_line st line
       = Some (open_hunk d (header_chunk os ol ns nl) st)
       ∧ (small_count ol →
          oldLines (header_chunk os ol ns nl) = written_count ol)
       ∧ (small_count nl →
          newLines (header_chunk os ol ns nl) = written_count nl)).
Proof.
  intros Hd Hat. rewrite (parse_line_hunk st d line Hd Hat).
  unfold hunk_line, hunk_match. split.
  - intros g Hg.
    destruct (re_search hunkPattern_at line 0) as [[j [[[g1 g2] g3] g4]]|] eqn:Hs;
      [|done].
    injection Hg as <-.
    apply re_search_leftmost in Hs as (pre & s' & -> & _ & Hm & Hmin).
    apply hunkPattern_at_Some in Hm as (ol & nl & tail & -> & Hwf & -> & ->).
    exists pre, g1, ol, g3, nl, tail.
    split_and!; try done; try (cbn [header_chunk oldLines newLines];
                               apply count_or_one_small).
    unfold open_hunk. cbn [fmap option_fmap option_map snd].
    rewrite new_chunk_header; [done | apply Hwf..].
  - intros os ol ns nl tail Hwf ->.
    rewrite (re_search_here _ _ _ _ (hunkPattern_at_header _ _ _ _ tail Hwf)).
    cbn [fmap option_fmap option_map snd].
    split_and!; try (cbn [header_chunk oldLines newLines];
                     apply count_or_one_small).
    unfold open_hunk. rewrite new_chunk_header; [done | apply Hwf..].
Qed.

(** * The parser: the starts of a chunk *)

(** C2, where the code departs from the claim.  The header of scenario 1
    reads [@@ -1,2 +1,3 @@], so both starts are 1; the chunk [parseDiff]
    returns has [oldStart] 3 and [newStart] 4, each start moved by the
    content lines read on its side. *)
Theorem scenario1_chunk_starts :
  hunk_match (lit "@@ -1,2 +1,3 @@")
  = Some (lit "1", lit "2", lit "1", lit "3")
  ∧ ∃ d c,
      parseDiff scenario1 = Some [d] ∧ chunks d = [c]
      ∧ oldStart c = Finite 3 ∧ newStart c = Finite 4.
Proof.
  split; [by vm_compute|].
  eexists _, _. split_and!; [vm_compute; reflexivity | reflexivity | done | done].
Qed.

(** At [2^53] the counter of a side no longer moves: the two removed lines
    of this chunk get the same number, and [oldStart] stays where the
    header put it. *)
Example counter_stalls_at_max_exact :
  parseDiff (lit "diff --git a/x b/x" ++ nl
             ++ lit "@@ -9007199254740992,2 +1,0 @@" ++ nl
             ++ lit "-a" ++ nl ++ lit "-b")
  = Some [{| oldFile := []; newFile := []; isDeleted := false; isNew := false;
             chunks :=
               [{| oldStart := Finite 9007199254740992; oldLines := Finite 2;
                   newStart := Finite 1; newLines := Finite 0;
                   lines :=
                     [{| type := removed; content := lit "a";
                         oldLineNumber := Some (Finite 9007199254740992);
                         newLineNumber := None |};
                      {| type := removed; content := lit "b";
                         oldLineNumber := Some (Finite 9007199254740992);
                         newLineNumber := None |}]
                |}] |}].
Proof. vm_compute. reflexivity. Qed.

(** Every content line increments the start of its side. *)
Lemma content_moves_starts text c :
  newStart (push_added text c) = increment (newStart c)
  ∧ oldStart (push_removed text c) = increment (oldStart c)
  ∧ oldStart (push_context text c) = increment (oldStart c)
  ∧ newStart (push_context text c) = increment (newStart c).
Proof. done. Qed.

(** * The theorems at sample inputs *)

Lemma splitDiffByFiles_coverage_witness :
  fileHeaders_of two_files = Some two_files_headers
  ∧ NoDup (fileName <$> two_files_headers)
  ∧ (lit "__proto__" ∉ fileName <$> two_files_headers)
  ∧ ∃ fileDiffs,
      splitDiffByFiles two_files = Some fileDiffs
      ∧ length two_files_headers = header_line_count two_files
      ∧ length (obj_entries fileDiffs) = header_line_count two_files
      ∧ (Forall (λ k, is_array_index k = false)
           (fileName <$> two_files_headers) →
         (obj_entries fileDiffs).*1 = fileName <$> two_files_headers
         ∧ take (first_index two_files two_files_headers) two_files
             ++ concat (obj_entries fileDiffs).*2 = two_files).
Proof.
  assert (H1 : fileHeaders_of two_files = Some two_files_headers)
    by (vm_compute; reflexivity).
  assert (H2 : NoDup (fileName <$> two_files_headers))
    by (apply (bool_decide_unpack _); vm_compute; exact I).
  assert (H3 : lit "__proto__" ∉ fileName <$> two_files_headers)
    by (apply (bool_decide_unpack _); vm_compute; exact I).
  split_and!; [exact H1 | exact H2 | exact H3 |].
  exact (splitDiffByFiles_coverage two_files two_files_headers H1 H2 H3).
Defined.

Lemma malformed_hunk_header_skipped_witness :
  malformed_header (lit "@@ oops")
  ∧ parse_line hunk_open_state (lit "@@ oops") = Some hunk_open_state.
Proof.
  assert (H : malformed_header (lit "@@ oops"))
    by (split; vm_compute; reflexivity).
  split; [exact H|].
  exact (proj1 (malformed_hunk_header_skipped hunk_open_state (lit "@@ oops") H)).
Defined.

Lemma content_line_classified_witness :
  currentDiff hunk_open_state
  = Some {| oldFile := []; newFile := []; isDeleted := false;
            isNew := false; chunks := [0] |}
  ∧ currentChunk hunk_open_state = Some 0
  ∧ store hunk_open_state !! 0
    = Some {| oldStart := Finite 1; oldLines := Finite 1;
              newStart := Finite 1; newLines := Finite 1; lines := [] |}
  ∧ startsWith (lit "-b") (lit "-") = true
  ∧ startsWith (lit "-b") (lit "--- a/") = false
  ∧ startsWith (lit "-b") (lit "--- /dev/null") = false
  ∧ records_line hunk_open_state 0 (lit "-b") removed.
Proof.
  split_and!; [reflexivity..|].
  exact (proj2 (proj1 (proj2
    (content_line_classified hunk_open_state _ 0 _ (lit "-b")
       eq_refl eq_refl eq_refl)) eq_refl eq_refl eq_refl)).
Defined.

Lemma hunk_header_counts_witness :
  currentDiff hunk_open_state
  = Some {| oldFile := []; newFile := []; isDeleted := false;
            isNew := false; chunks := [0] |}
  ∧ startsWith (lit "@@ -4,2 +7 @@ f()") (lit "@@ ") = true
  ∧ well_formed_header (lit "4") (Some (lit "2")) (lit "7") None
  ∧ parse_line hunk_open_state (lit "@@ -4,2 +7 @@ f()")
    = Some (open_hunk
              {| oldFile := []; newFile := []; isDeleted := false;
                 isNew := false; chunks := [0] |}
              {| oldStart := Finite 4; oldLines := Finite 2;
                 newStart := Finite 7; newLines := Finite 1; lines := [] |}
              hunk_open_state).
Proof.
  assert (Hwf : well_formed_header (lit "4") (Some (lit "2")) (lit "7") None).
  { unfold well_formed_header, digits. split_and!; try done;
      repeat constructor. }
  split_and!; [reflexivity | reflexivity | exact Hwf |].
  exact (proj1
           (proj2 (hunk_header_counts hunk_open_state _
                     (lit "@@ -4,2 +7 @@ f()") eq_refl eq_refl)
              (lit "4") (Some (lit "2")) (lit "7") None (lit " f()") Hwf
              eq_refl)).
Defined.

Lemma header_needs_line_feed_witness :
  (LF ∉ lit "diff --git a/x b/x")
  ∧ splitDiffByFiles (lit "diff --git a/x b/x") = Some [].
Proof.
  assert (H : LF ∉ lit "diff --git a/x b/x")
    by (apply (bool_decide_unpack _); vm_compute; exact I).
  split; [exact H|].
  destruct (header_needs_line_feed [] (lit "diff --git a/x b/x") H)
    as (hs & fileDiffs & _ & Hsplit & _ & _ & Hempty).
  destruct (Hempty eq_refl) as [_ ->]. exact Hsplit.
Defined.

(** * More about the parser: what every turn of the loop does *)

Lemma parse_line_step st line st' :
  parse_line st line = Some st' → line_step st line st'.
Proof.
  unfold parse_line.
  destruct (startsWith line (lit "diff --git ")) eqn:Hh.
  { intros [= <-]. by apply step_file_header. }
  destruct (currentDiff st) as [d|] eqn:Hd;
    [|by intros [= <-]; apply step_skip].
  destruct (startsWith line (lit "--- a/")) eqn:H1;
    [by intros [= <-]; eapply step_old_name|].
  destruct (startsWith line (lit "+++ b/")) eqn:H2;
    [by intros [= <-]; eapply step_new_name|].
  destruct (startsWith line (lit "+++ /dev/null")) eqn:H3;
    [by intros [= <-]; eapply step_deleted|].
  destruct (startsWith line (lit "--- /dev/null")) eqn:H4;
    [by intros [= <-]; eapply step_new|].
  destruct (_ || _); [by intros [= <-]; apply step_skip|].
  destruct (startsWith line (lit "@@ ")) eqn:H5.
  { intros [= <-]. unfold hunk_line.
    destruct (hunk_match line) as [g|] eqn:Hg;
      [by eapply step_hunk | by apply step_skip]. }
  destruct (currentChunk st) as [r|] eqn:Hr;
    [|by intros [= <-]; apply step_skip].
  unfold content_line, update_chunk.
  destruct (startsWith line (lit "+")) eqn:H6.
  { destruct (store st !! r) as [c|] eqn:Hc; [|done].
    intros [= <-]. by eapply step_added. }
  destruct (startsWith line (lit "-")) eqn:H7.
  { destruct (store st !! r) as [c|] eqn:Hc; [|done].
    intros [= <-]. by eapply step_removed. }
  destruct (startsWith line (lit " ")) eqn:H8.
  { destruct (store st !! r) as [c|] eqn:Hc; [|done].
    intros [= <-]. by eapply step_context. }
  destruct (key_eqb _ _); by intros [= <-]; apply step_skip.
Qed.

Lemma Zsum_app l1 l2 : Zsum (l1 ++ l2) = (Zsum l1 + Zsum l2)%Z.
Proof.
  unfold Zsum. induction l1 as [|x l1 IH]; simpl; [lia|]. rewrite IH. lia.
Qed.

Lemma Zsum_insert {A : Type} (f : A → Z) (h : list A) r c c' :
  h !! r = Some c →
  Zsum (f <$> <[r := c']> h) = (Zsum (f <$> h) - f c + f c')%Z.
Proof.
  intros Hr. pose proof (lookup_lt_Some _ _ _ Hr) as Hlt.
  assert (E : Zsum (f <$> h)
              = (Zsum (f <$> take r h)
                 + (f c + Zsum (f <$> drop (S r) h)))%Z).
  { rewrite <- (take_drop_middle h r c Hr) at 1.
    by rewrite fmap_app, fmap_cons, Zsum_app. }
  rewrite insert_take_drop, fmap_app, fmap_cons, Zsum_app, E by done.
  change (Zsum (f c' :: (f <$> drop (S r) h)))
    with (f c' + Zsum (f <$> drop (S r) h))%Z.
  lia.
Qed.

Lemma all_files_header st :
  all_files {| diffs := all_files st; currentDiff := Some empty_diff;
               currentChunk := currentChunk st; store := store st |}
  = all_files st ++ [empty_diff].
Proof. done. Qed.

Lemma all_files_set_currentDiff st d d' :
  currentDiff st = Some d →
  all_files (set_currentDiff d' st) = diffs st ++ [d']
  ∧ all_files st = diffs st ++ [d].
Proof. intros Hd. unfold all_files. simpl. by rewrite Hd. Qed.

(** The files are as many as the file-header lines read. *)
Lemma line_step_files st line st' :
  line_step st line st' →
  length (all_files st')
  = length (all_files st)
    + (if startsWith line (lit "diff --git ") then 1 else 0).
Proof.
  destruct 1;
    repeat match goal with
    | H : startsWith line (lit ?p) = true |- _ =>
        lazymatch p with
        | "diff --git "%string => fail
        | _ => prefix_false line (lit p) H (lit "diff --git "); clear H
        end
    end;
    try match goal with
    | H : startsWith line (lit "diff --git ") = _ |- _ => rewrite H
    end;
    try match goal with
    | H : currentDiff st = Some _ |- _ =>
        unfold all_files; simpl; rewrite H; rewrite ?length_app; simpl; lia
    end.
  - rewrite all_files_header, length_app. simpl. lia.
  - lia.
Qed.

Lemma line_step_owned st line st' :
  line_step st line st' → owned st → owned st'.
Proof.
  unfold owned.
  destruct 1 as [Hh|Hh|d Hd H1|d Hd H1|d Hd H1|d Hd H1|d g Hd Hh H1 Hg
                 |d r c Hd Hr Hc H1|d r c Hd Hr Hc H1|d r c Hd Hr Hc H1];
    intros Hown; try done.
  - rewrite all_files_header, fmap_app, concat_app. simpl.
    by rewrite !app_nil_r.
  - destruct (all_files_set_currentDiff st d
      {| oldFile := substring_from line 6; newFile := newFile d;
         isDeleted := isDeleted d; isNew := isNew d; chunks := chunks d |} Hd)
      as [-> E]. rewrite E in Hown. by rewrite fmap_app in *.
  - destruct (all_files_set_currentDiff st d
      {| oldFile := oldFile d; newFile := substring_from line 6;
         isDeleted := isDeleted d; isNew := isNew d; chunks := chunks d |} Hd)
      as [-> E]. rewrite E in Hown. by rewrite fmap_app in *.
  - destruct (all_files_set_currentDiff st d
      {| oldFile := oldFile d; newFile := newFile d;
         isDeleted := true; isNew := isNew d; chunks := chunks d |} Hd)
      as [-> E]. rewrite E in Hown. by rewrite fmap_app in *.
  - destruct (all_files_set_currentDiff st d
      {| oldFile := oldFile d; newFile := newFile d;
         isDeleted := isDeleted d; isNew := true; chunks := chunks d |} Hd)
      as [-> E]. rewrite E in Hown. by rewrite fmap_app in *.
  - unfold all_files in *. rewrite Hd in Hown. simpl.
    rewrite fmap_app, concat_app in *. simpl in *.
    rewrite app_nil_r in *. rewrite length_app. simpl.
    rewrite Nat.add_1_r, seq_S. simpl. by rewrite app_assoc, Hown.
  - unfold all_files in *. simpl. by rewrite length_insert.
  - unfold all_files in *. simpl. by rewrite length_insert.
  - unfold all_files in *. simpl. by rewrite length_insert.
Qed.

Lemma numbered_from_snoc ls o n l :
  numbered_from o n ls →
  oldLineNumber l = (if on_old l then Some (old_counter o ls) else None) →
  newLineNumber l = (if on_new l then Some (new_counter n ls) else None) →
  numbered_from o n (ls ++ [l]).
Proof.
  revert o n. induction ls as [|l0 ls IH]; intros o n; simpl.
  - by intros _ -> ->.
  - intros (Ho & Hn & Hrest) Hol Hnl. split_and!; [done | done |].
    by apply IH.
Qed.

Lemma counter_snoc ls l o n :
  old_counter o (ls ++ [l]) = bump (on_old l) (old_counter o ls)
  ∧ new_counter n (ls ++ [l]) = bump (on_new l) (new_counter n ls).
Proof. unfold old_counter, new_counter. by rewrite !fold_left_app. Qed.

(** A content line leaves its chunk a chunk of the same header. *)
Lemma counted_from_push g c text :
  counted_from g c →
  counted_from g (push_added text c)
  ∧ counted_from g (push_removed text c)
  ∧ counted_from g (push_context text c).
Proof.
  intros (Hol & Hnl & Hnum & Hos & Hns).
  split_and!; unfold counted_from; cbn [push_added push_removed push_context
    oldStart oldLines newStart newLines lines];
    (split_and!; [done | done | | |]);
    try (apply numbered_from_snoc; [done | simpl; congruence..]);
    match goal with
    | |- context [old_counter ?o (?ls ++ [?l])] =>
        destruct (counter_snoc ls l o o) as [-> _]
    | |- context [new_counter ?n (?ls ++ [?l])] =>
        destruct (counter_snoc ls l n n) as [_ ->]
    end; simpl; congruence.
Qed.

Lemma chunk_of_header_push L c text :
  chunk_of_header L c →
  chunk_of_header L (push_added text c)
  ∧ chunk_of_header L (push_removed text c)
  ∧ chunk_of_header L (push_context text c).
Proof.
  intros (line & g & Hin & Hat & Hg & Hc).
  destruct (counted_from_push g c text Hc) as (Ha & Hr & Hx).
  split_and!; by exists line, g.
Qed.

Lemma line_step_chunks L st line st' :
  line_step st line st' → line ∈ L →
  Forall (chunk_of_header L) (store st) →
  Forall (chunk_of_header L) (store st').
Proof.
  destruct 1 as [Hh|Hh|d Hd H1|d Hd H1|d Hd H1|d Hd H1|d g Hd Hh H1 Hg
                 |d r c Hd Hr Hc H1|d r c Hd Hr Hc H1|d r c Hd Hr Hc H1];
    intros Hin Hall; try done; simpl.
  - apply Forall_app. split; [done|]. constructor; [|constructor].
    exists line, g. destruct g as [[[g1 g2] g3] g4].
    by split_and!.
  - apply Forall_insert; [done|].
    by apply chunk_of_header_push, (Forall_lookup_1 _ _ _ _ Hall Hc).
  - apply Forall_insert; [done|].
    by apply chunk_of_header_push, (Forall_lookup_1 _ _ _ _ Hall Hc).
  - apply Forall_insert; [done|].
    by apply chunk_of_header_push, (Forall_lookup_1 _ _ _ _ Hall Hc).
Qed.

Lemma lines_of_type_snoc t cs c :
  lines_of_type t (cs ++ [c])
  = (lines_of_type t cs + Zsum (of_type t <$> lines c))%Z.
Proof.
  unfold lines_of_type. by rewrite fmap_app, list_fmap_singleton, Zsum_snoc.
Qed.

Lemma lines_of_type_push t (h : list DiffChunk) r c c' l :
  h !! r = Some c → lines c' = lines c ++ [l] →
  lines_of_type t (<[r := c']> h) = (lines_of_type t h + of_type t l)%Z.
Proof.
  intros Hr Hl. unfold lines_of_type.
  rewrite (Zsum_insert _ h r c c' Hr), Hl.
  rewrite fmap_app, list_fmap_singleton, Zsum_snoc. lia.
Qed.

(** A line adds at most one line of a type to the store, and only when it
    starts with the marker of the type. *)
Lemma line_step_added st line st' :
  line_step st line st' →
  (lines_of_type added (store st')
   ≤ lines_of_type added (store st)
     + (if startsWith line (lit "+") then 1 else 0))%Z
  ∧ (lines_of_type removed (store st')
     ≤ lines_of_type removed (store st)
       + (if startsWith line (lit "-") then 1 else 0))%Z.
Proof.
  assert (Hpos : ∀ b : bool, (0 ≤ if b then 1 else 0)%Z)
    by (intros []; lia).
  pose proof (Hpos (startsWith line (lit "+"))).
  pose proof (Hpos (startsWith line (lit "-"))).
  destruct 1 as [Hh|Hh|d Hd H1|d Hd H1|d Hd H1|d Hd H1|d g Hd Hh H1 Hg
                 |d r c Hd Hr Hc H1|d r c Hd Hr Hc H1|d r c Hd Hr Hc H1];
    unfold open_hunk, set_store, set_currentDiff; cbn [store]; try lia.
  - rewrite !lines_of_type_snoc.
    replace (lines (new_chunk g)) with (@nil DiffLine)
      by (by destruct g as [[[g1 g2] g3] g4]).
    change (Zsum (of_type added <$> [])) with 0%Z.
    change (Zsum (of_type removed <$> [])) with 0%Z. lia.
  - rewrite !(lines_of_type_push _ _ r c
                (push_added (substring_from line 1) c) _ Hc eq_refl), H1.
    unfold of_type; cbn [type]; repeat case_decide; try done; lia.
  - rewrite !(lines_of_type_push _ _ r c
                (push_removed (substring_from line 1) c) _ Hc eq_refl), H1.
    unfold of_type; cbn [type]; repeat case_decide; try done; lia.
  - rewrite !(lines_of_type_push _ _ r c
                (push_context (substring_from line 1) c) _ Hc eq_refl).
    unfold of_type; cbn [type]; repeat case_decide; try done; lia.
Qed.

Lemma line_step_flags L st line st' :
  line_step st line st' → line ∈ L →
  Forall (flags_from L) (all_files st) →
  Forall (flags_from L) (all_files st').
Proof.
  destruct 1 as [Hh|Hh|d Hd H1|d Hd H1|d Hd H1|d Hd H1|d g Hd Hh H1 Hg
                 |d r c Hd Hr Hc H1|d r c Hd Hr Hc H1|d r c Hd Hr Hc H1];
    intros Hin Hall; try done;
    try (unfold all_files in *; simpl; rewrite Hd in *;
         apply Forall_app in Hall as [Hds [[HD HN] _]%Forall_cons];
         apply Forall_app; split; [done|]; constructor; [|constructor];
         split; simpl; eauto).
  rewrite all_files_header. apply Forall_app. split; [done|].
  constructor; [|constructor]. by split.
Qed.

Lemma parse_lines_inv (P : ParserState → Prop) (L ls : list jsstring) st st' :
  (∀ st1 line st2, line ∈ L → line_step st1 line st2 → P st1 → P st2) →
  (∀ l, l ∈ ls → l ∈ L) →
  parse_lines st ls = Some st' → P st → P st'.
Proof.
  intros Hstep. revert st.
  induction ls as [|line ls IH]; intros st Hsub; simpl.
  - by intros [= <-].
  - destruct (parse_line st line) as [st1|] eqn:H1; [|done]. simpl.
    intros Hrest HP. apply (IH st1); [| done |].
    + intros l Hl. apply Hsub. by right.
    + apply (Hstep st line); [apply Hsub; by left | | done].
      by apply parse_line_step.
Qed.

(** What [parseDiff] has read when it returns. *)
Lemma parseDiff_final diffStr ds :
  parseDiff diffStr = Some ds →
  ∃ st, parse_lines initial_state (split_lines diffStr) = Some st
        ∧ finish st = Some ds.
Proof.
  unfold parseDiff.
  destruct (parse_lines _ _) as [st|]; [|done]. simpl. by exists st.
Qed.

Lemma finish_files st ds :
  finish st = Some ds →
  Forall2 (λ d d',
             oldFile d' = oldFile d ∧ newFile d' = newFile d
             ∧ isDeleted d' = isDeleted d ∧ isNew d' = isNew d
             ∧ Forall2 (λ r c, store st !! r = Some c) (chunks d) (chunks d'))
          (all_files st) ds.
Proof.
  unfold finish. fold (all_files st). intros Hm%mapM_Some_1.
  eapply Forall2_impl; [exact Hm|].
  intros d d'. unfold resolve.
  destruct (mapM _ (chunks d)) as [cs|] eqn:Hcs; [|done].
  intros [= <-]. simpl. split_and!; try done. by apply mapM_Some_1.
Qed.

(** The chunks returned are the store, in order, each in one file. *)
Lemma finish_chunks st ds :
  owned st → finish st = Some ds → concat (chunks <$> ds) = store st.
Proof.
  intros Hown Hfin%finish_files.
  assert (H : Forall2 (λ r c, store st !! r = Some c)
                (concat (chunks <$> all_files st)) (concat (chunks <$> ds))).
  { induction Hfin as [|d d' fs ds' (_ & _ & _ & _ & Hc) _ IH]; [constructor|].
    rewrite !fmap_cons. simpl. by apply Forall2_app. }
  rewrite Hown in H. clear Hown Hfin.
  apply list_eq. intros i.
  destruct (store st !! i) as [c|] eqn:Hi.
  - assert (Hs : seq 0 (length (store st)) !! i = Some i).
    { apply lookup_seq. split; [done|]. by eapply lookup_lt_Some. }
    destruct (Forall2_lookup_l _ _ _ _ _ H Hs) as (c' & -> & Hc').
    congruence.
  - apply lookup_ge_None. apply lookup_ge_None in Hi.
    by rewrite <- (Forall2_length _ _ _ H), length_seq.
Qed.

Lemma parse_lines_files ls st st' :
  parse_lines st ls = Some st' →
  Z.of_nat (length (all_files st'))
  = (Z.of_nat (length (all_files st))
     + lines_starting (lit "diff --git ") ls)%Z.
Proof.
  revert st. induction ls as [|line ls IH]; intros st; simpl.
  - intros [= <-]. unfold lines_starting, Zsum. simpl. lia.
  - destruct (parse_line st line) as [st1|] eqn:H1; [|done]. simpl.
    intros Hrest. rewrite (IH _ Hrest).
    rewrite (line_step_files _ _ _ (parse_line_step _ _ _ H1)).
    unfold lines_starting. rewrite fmap_cons.
    change (Zsum (?x :: ?l)) with (x + Zsum l)%Z.
    destruct (startsWith line (lit "diff --git ")); lia.
Qed.

Lemma parse_line_store_length st line st' :
  parse_line st line = Some st' →
  startsWith line (lit "diff --git ") = false →
  length (store st')
  = length (store st)
    + (if bool_decide (is_Some (currentDiff st))
          && startsWith line (lit "@@ ")
          && bool_decide (is_Some (hunk_match line))
       then 1 else 0)
  ∧ bool_decide (is_Some (currentDiff st'))
    = bool_decide (is_Some (currentDiff st)).
Proof.
  intros Hline Hh.
  destruct (currentDiff st) as [d|] eqn:Hd.
  - destruct (startsWith line (lit "@@ ")) eqn:Hat.
    + rewrite (parse_line_hunk st d line Hd Hat) in Hline.
      injection Hline as <-. unfold hunk_line.
      destruct (hunk_match line) as [g|]; simpl.
      * rewrite length_app. simpl. done.
      * rewrite Hd. simpl. split; [lia | done].
    + simpl. apply parse_line_step in Hline.
      destruct Hline; simpl; rewrite ?length_insert, ?Hd;
        first [ congruence | split; [lia | done] ].
  - unfold parse_line in Hline. rewrite Hh, Hd in Hline.
    injection Hline as <-. rewrite Hd. simpl. split; [lia | done].
Qed.

(** The store holds one chunk for each hunk header recognized. *)
Lemma parse_lines_store_length ls st st' :
  parse_lines st ls = Some st' →
  length (store st')
  = length (store st)
    + recognized_hunks (bool_decide (is_Some (currentDiff st))) ls.
Proof.
  revert st. induction ls as [|line ls IH]; intros st;
    cbn [parse_lines recognized_hunks].
  - intros [= <-]. lia.
  - destruct (parse_line st line) as [st1|] eqn:H1;
      intros Hrest; simpl in Hrest; [|done].
    rewrite (IH _ Hrest).
    destruct (startsWith line (lit "diff --git ")) eqn:Hh.
    + unfold parse_line in H1. rewrite Hh in H1. injection H1 as <-.
      cbn [store currentDiff].
      by rewrite bool_decide_eq_true_2 by (by eexists).
    + destruct (parse_line_store_length _ _ _ H1 Hh) as [-> ->]. lia.
Qed.

(** * More about the summarizer: what the counters count *)

Lemma Zsum_cons x l : Zsum (x :: l) = (x + Zsum l)%Z.
Proof. done. Qed.

Lemma count_line_fold ls a b :
  fold_left count_line ls (a, b)
  = ((a + Zsum (of_type added <$> ls))%Z,
     (b + Zsum (of_type removed <$> ls))%Z).
Proof.
  revert a b. induction ls as [|l ls IH]; intros a b; cbn [fold_left].
  - unfold Zsum. simpl. by rewrite !Z.add_0_r.
  - destruct (count_line (a, b) l) as [a' b'] eqn:E.
    rewrite IH, !fmap_cons, !Zsum_cons. unfold count_line, of_type in *.
    destruct (type l); injection E as <- <-;
      repeat case_decide; try done; f_equal; lia.
Qed.

Lemma count_chunk_fold cs a b :
  fold_left count_chunk cs (a, b)
  = ((a + lines_of_type added cs)%Z, (b + lines_of_type removed cs)%Z).
Proof.
  revert a b. induction cs as [|c cs IH]; intros a b; cbn [fold_left].
  - unfold lines_of_type, Zsum. simpl. by rewrite !Z.add_0_r.
  - unfold count_chunk at 2. rewrite count_line_fold, IH.
    unfold lines_of_type. rewrite !fmap_cons, !Zsum_cons. f_equal; lia.
Qed.

Lemma lines_of_type_app t cs1 cs2 :
  lines_of_type t (cs1 ++ cs2)
  = (lines_of_type t cs1 + lines_of_type t cs2)%Z.
Proof. unfold lines_of_type. by rewrite fmap_app, Zsum_app. Qed.

Lemma summarize_file_counts ds ti td fcs :
  ∃ new,
    fold_left summarize_file ds (ti, td, fcs)
    = ((ti + lines_of_type added (concat (chunks <$> ds)))%Z,
       (td + lines_of_type removed (concat (chunks <$> ds)))%Z,
       fcs ++ new)
    ∧ Forall2 counts_lines ds new.
Proof.
  revert ti td fcs. induction ds as [|d ds IH]; intros ti td fcs.
  - exists []. simpl. unfold lines_of_type, Zsum. simpl.
    rewrite !Z.add_0_r, app_nil_r. split; [done | constructor].
  - cbn [fold_left summarize_file]. rewrite count_chunk_fold.
    edestruct IH as (new & -> & Hnew).
    eexists (_ :: new). split.
    + rewrite fmap_cons. simpl concat. rewrite !lines_of_type_app.
      rewrite <- app_assoc, !Z.add_0_l. simpl.
      f_equal. f_equal; lia.
    + constructor; [|done]. by split_and!.
Qed.

Lemma summarize_counts ds :
  insertions (summarize ds) = lines_of_type added (concat (chunks <$> ds))
  ∧ deletions (summarize ds) = lines_of_type removed (concat (chunks <$> ds))
  ∧ Forall2 counts_lines ds (fileChanges (summarize ds)).
Proof.
  unfold summarize.
  destruct (summarize_file_counts ds 0 0 []) as (new & -> & Hnew).
  simpl. done.
Qed.

(** * Further properties of the parser and of the summarizer *)

Lemma parseDiff_reached diffStr :
  ∃ st ds,
    parse_lines initial_state (split_lines diffStr) = Some st
    ∧ finish st = Some ds ∧ parseDiff diffStr = Some ds.
Proof.
  destruct (parseDiff_total diffStr) as [ds Hds].
  destruct (parseDiff_final _ _ Hds) as (st & Hst & Hfin). by exists st, ds.
Qed.

Lemma owned_reached ls st :
  parse_lines initial_state ls = Some st → owned st.
Proof.
  intros Hst.
  apply (parse_lines_inv owned ls ls initial_state st); try done.
  intros st1 line st2 _. apply line_step_owned.
Qed.

(** X1.  [parseDiff] returns one file for each line of the input that
    starts with [diff --git ], and [summarizeDiff] reports that number as
    [filesChanged]. *)
Theorem files_are_header_lines (diffStr : jsstring) :
  ∃ ds sm,
    parseDiff diffStr = Some ds ∧ summarizeDiff diffStr = Some sm
    ∧ Z.of_nat (length ds)
      = lines_starting (lit "diff --git ") (split_lines diffStr)
    ∧ filesChanged sm
      = lines_starting (lit "diff --git ") (split_lines diffStr).
Proof.
  destruct (parseDiff_reached diffStr) as (st & ds & Hst & Hfin & Hds).
  exists ds, (summarize ds). unfold summarizeDiff. rewrite Hds.
  assert (Hlen : Z.of_nat (length ds)
                 = lines_starting (lit "diff --git ") (split_lines diffStr)).
  { rewrite <- (Forall2_length _ _ _ (finish_files _ _ Hfin)).
    by rewrite (parse_lines_files _ _ _ Hst). }
  split_and!; try done.
  unfold summarize. by destruct (fold_left _ _ _) as [[? ?] ?].
Qed.

Lemma one_if_sum_nonneg (f : DiffLine → bool) ls :
  (0 ≤ Zsum ((λ l, one_if (f l)) <$> ls))%Z.
Proof.
  induction ls as [|l ls IH]; [done|].
  rewrite fmap_cons, Zsum_cons. destruct (f l); simpl; lia.
Qed.

(** Within [2^53] the counters are the sums and the numbers are
    consecutive. *)
Lemma numbered_small ls o n :
  numbered_from (Finite o) (Finite n) ls →
  (o + old_side ls ≤ max_exact)%Z → (n + new_side ls ≤ max_exact)%Z →
  numbered_consecutively o n ls
  ∧ old_counter (Finite o) ls = Finite (o + old_side ls)
  ∧ new_counter (Finite n) ls = Finite (n + new_side ls).
Proof.
  revert o n. induction ls as [|l ls IH]; intros o n.
  - intros _ _ _. unfold old_side, new_side, Zsum. simpl.
    by rewrite !Z.add_0_r.
  - unfold old_side, new_side. rewrite !fmap_cons, !Zsum_cons.
    fold (old_side ls). fold (new_side ls).
    intros (Ho & Hn & Hrest) Hob Hnb.
    pose proof (one_if_sum_nonneg on_old ls) as Hpo.
    pose proof (one_if_sum_nonneg on_new ls) as Hpn.
    fold (old_side ls) in Hpo. fold (new_side ls) in Hpn.
    assert (Eo : bump (on_old l) (Finite o) = Finite (o + one_if (on_old l))).
    { destruct (on_old l); simpl.
      - apply to_number_small. simpl in Hob. lia.
      - by rewrite Z.add_0_r. }
    assert (En : bump (on_new l) (Finite n) = Finite (n + one_if (on_new l))).
    { destruct (on_new l); simpl.
      - apply to_number_small. simpl in Hnb. lia.
      - by rewrite Z.add_0_r. }
    rewrite Eo, En in Hrest.
    destruct (IH _ _ Hrest) as (Hc & Hoc & Hnc); [lia | lia |].
    cbn [numbered_consecutively old_counter new_counter fold_left].
    fold (old_counter (bump (on_old l) (Finite o)) ls).
    fold (new_counter (bump (on_new l) (Finite n)) ls).
    rewrite Eo, En, Hoc, Hnc, !Z.add_assoc. by split_and!.
Qed.

(** X2.  Every chunk [parseDiff] returns comes from a hunk header of the
    input that the pattern matches: its [oldLines] and [newLines] are the
    header's counts, its lines are numbered from the header's starts, each
    side by its own lines and each number the [++] of the one before, and
    its [oldStart] and [newStart] are the counters after the last line.
    While the header's starts and the lines of the chunk stay within
    [2^53], the numbers are consecutive integers and [oldStart] and
    [newStart] are the header's starts plus the number of lines read on
    each side. *)
Theorem chunks_numbered_from_header (diffStr : jsstring) :
  ∃ ds,
    parseDiff diffStr = Some ds
    ∧ ∀ d c, d ∈ ds → c ∈ chunks d →
        ∃ line g,
          line ∈ split_lines diffStr
          ∧ startsWith line (lit "@@ ") = true
          ∧ hunk_match line = Some g
          ∧ counted_from g c
          ∧ consecutive_when_small g c.
Proof.
  destruct (parseDiff_reached diffStr) as (st & ds & Hst & Hfin & Hds).
  exists ds. split; [done|]. intros d c Hd Hc.
  assert (Hall : Forall (chunk_of_header (split_lines diffStr)) (store st)).
  { apply (parse_lines_inv _ (split_lines diffStr) _ _ _
             (λ st1 line st2 Hin Hstep, line_step_chunks _ _ _ _ Hstep Hin)
             (λ l Hl, Hl) Hst).
    constructor. }
  apply finish_files in Hfin.
  apply list_elem_of_lookup in Hd as [i Hi].
  destruct (Forall2_lookup_r _ _ _ _ _ Hfin Hi) as (d0 & _ & _ & _ & _ & _ & Hcs).
  apply list_elem_of_lookup in Hc as [j Hj].
  destruct (Forall2_lookup_r _ _ _ _ _ Hcs Hj) as (r & _ & Hr).
  destruct (Forall_lookup_1 _ _ _ _ Hall Hr)
    as (line & g & Hin & Hat & Hg & Hcount).
  exists line, g. split_and!; try done.
  destruct Hcount as (_ & _ & Hnum & Hos & Hns).
  intros o n Ho Hn Hob Hnb. rewrite Ho, Hn in *.
  destruct (numbered_small _ _ _ Hnum Hob Hnb) as (Hc & Hoc & Hnc).
  split_and!; [done | by rewrite Hos | by rewrite Hns].
Qed.

(** X3.  Every chunk the parser creates is returned in exactly one file:
    the chunks of the returned files, taken together, are as many as the
    hunk headers recognized, that is the lines read after a file header
    that start with [@@ ] and hold a match of the pattern. *)
Theorem chunks_are_recognized_headers (diffStr : jsstring) :
  ∃ ds,
    parseDiff diffStr = Some ds
    ∧ length (concat (chunks <$> ds))
      = recognized_hunks false (split_lines diffStr).
Proof.
  destruct (parseDiff_reached diffStr) as (st & ds & Hst & Hfin & Hds).
  exists ds. split; [done|].
  rewrite (finish_chunks st ds (owned_reached _ _ Hst) Hfin).
  by rewrite (parse_lines_store_length _ _ _ Hst).
Qed.

(** X4.  In the summary the record of each file counts the added and the
    removed lines of its chunks and copies its two flags, and the totals
    count the added and the removed lines of all the chunks. *)
Theorem summary_counts_lines (diffStr : jsstring) :
  ∃ ds sm,
    parseDiff diffStr = Some ds ∧ summarizeDiff diffStr = Some sm
    ∧ Forall2 counts_lines ds (fileChanges sm)
    ∧ insertions sm = lines_of_type added (concat (chunks <$> ds))
    ∧ deletions sm = lines_of_type removed (concat (chunks <$> ds)).
Proof.
  destruct (parseDiff_total diffStr) as [ds Hds].
  exists ds, (summarize ds). unfold summarizeDiff. rewrite Hds.
  destruct (summarize_counts ds) as (Hi & Hd & Hfc). by split_and!.
Qed.

Lemma parse_lines_added ls st st' :
  parse_lines st ls = Some st' →
  (lines_of_type added (store st')
   ≤ lines_of_type added (store st) + lines_starting (lit "+") ls)%Z
  ∧ (lines_of_type removed (store st')
     ≤ lines_of_type removed (store st) + lines_starting (lit "-") ls)%Z.
Proof.
  revert st. induction ls as [|line ls IH]; intros st; cbn [parse_lines].
  - intros [= <-]. unfold lines_starting, Zsum. simpl. lia.
  - destruct (parse_line st line) as [st1|] eqn:H1;
      intros Hrest; simpl in Hrest; [|done].
    destruct (IH _ Hrest) as [Ha Hr].
    destruct (line_step_added _ _ _ (parse_line_step _ _ _ H1)) as [Ha1 Hr1].
    unfold lines_starting in *. rewrite !fmap_cons, !Zsum_cons. lia.
Qed.

Lemma summarizeDiff_bounds (diffStr : jsstring) :
  ∃ sm,
    summarizeDiff diffStr = Some sm
    ∧ (0 ≤ insertions sm ≤ lines_starting (lit "+") (split_lines diffStr))%Z
    ∧ (0 ≤ deletions sm ≤ lines_starting (lit "-") (split_lines diffStr))%Z.
Proof.
  destruct (parseDiff_reached diffStr) as (st & ds & Hst & Hfin & Hds).
  exists (summarize ds). unfold summarizeDiff. rewrite Hds.
  destruct (summarize_counts ds) as (-> & -> & _).
  rewrite (finish_chunks st ds (owned_reached _ _ Hst) Hfin).
  destruct (parse_lines_added _ _ _ Hst) as [Ha Hr].
  assert (Hpos : ∀ t cs, (0 ≤ lines_of_type t cs)%Z).
  { intros t cs. unfold lines_of_type.
    induction cs as [|c cs IH]; [done|].
    rewrite fmap_cons, Zsum_cons.
    assert (0 ≤ Zsum (of_type t <$> lines c))%Z; [|lia].
    induction (lines c) as [|l ls IHl]; [done|].
    rewrite fmap_cons, Zsum_cons. unfold of_type at 1. case_decide; lia. }
  pose proof (Hpos added (store st)). pose proof (Hpos removed (store st)).
  change (lines_of_type added (store initial_state)) with 0%Z in Ha.
  change (lines_of_type removed (store initial_state)) with 0%Z in Hr.
  split_and!; first [done | lia].
Qed.

(** X5.  [summarizeDiff] never counts more insertions than the input has
    lines that start with [+], nor more deletions than it has lines that
    start with [-]; neither count is negative. *)
Theorem summary_bounded_by_markers (diffStr : jsstring) :
  ∃ sm,
    summarizeDiff diffStr = Some sm
    ∧ (0 ≤ insertions sm ≤ lines_starting (lit "+") (split_lines diffStr))%Z
    ∧ (0 ≤ deletions sm ≤ lines_starting (lit "-") (split_lines diffStr))%Z.
Proof. exact (summarizeDiff_bounds diffStr). Qed.

Lemma parseDiff_flags (diffStr : jsstring) :
  ∃ ds,
    parseDiff diffStr = Some ds
    ∧ Forall (flags_from (split_lines diffStr)) ds.
Proof.
  destruct (parseDiff_reached diffStr) as (st & ds & Hst & Hfin & Hds).
  exists ds. split; [done|].
  assert (Hall : Forall (flags_from (split_lines diffStr)) (all_files st)).
  { apply (parse_lines_inv _ (split_lines diffStr) _ _ _
             (λ st1 line st2 Hin Hstep, line_step_flags _ _ _ _ Hstep Hin)
             (λ l Hl, Hl) Hst).
    constructor. }
  apply finish_files in Hfin. clear Hds. revert Hall Hfin.
  generalize (all_files st). intros fs Hall Hfin.
  induction Hfin as [|d d' fs ds' (_ & _ & HD & HN & _) _ IH]; [constructor|].
  apply Forall_cons in Hall as [[H1 H2] Hall].
  constructor; [|by apply IH].
  split; [rewrite HD | rewrite HN]; done.
Qed.

(** X6.  [parseDiff] marks a file deleted only when a line of the input
    starts with [+++ /dev/null], and new only when a line starts with
    [--- /dev/null]. *)
Theorem flags_need_dev_null (diffStr : jsstring) :
  ∃ ds,
    parseDiff diffStr = Some ds
    ∧ Forall (flags_from (split_lines diffStr)) ds.
Proof. exact (parseDiff_flags diffStr). Qed.

(** * Further properties of the segmenter *)

(** The lazy run stops at the first place where the continuation
    accepts. *)
Lemma re_lazy_first {R : Type} p acc s
    (k : jsstring → jsstring → option R) r :
  re_lazy p acc s k = Some r →
  ∃ mid s',
    s = mid ++ s' ∧ Forall (λ c, p c = true) mid
    ∧ k (acc ++ mid) s' = Some r
    ∧ ∀ m1 m2, mid = m1 ++ m2 → m2 ≠ [] → k (acc ++ m1) (m2 ++ s') = None.
Proof.
  revert acc. induction s as [|c s IH]; intros acc; simpl.
  - destruct (k acc []) eqn:Hk; [|done].
    intros [= <-]. exists [], []. rewrite !app_nil_r.
    split_and!; first [done | constructor | idtac].
    by intros [|? ?] [|? ?].
  - destruct (k acc (c :: s)) eqn:Hk.
    + intros [= <-]. exists [], (c :: s). rewrite !app_nil_r.
      split_and!; first [done | constructor | idtac].
      by intros [|? ?] [|? ?].
    + destruct (p c) eqn:Hp; [|done].
      intros (mid & s' & -> & Hmid & Hr & Hmin)%IH.
      exists (c :: mid), s'. rewrite <- app_assoc in Hr.
      split_and!; first [done | by constructor | idtac].
      intros [|c' m1] m2 Heq Hne.
      * simpl in Heq. subst m2. by rewrite app_nil_r.
      * injection Heq as <- ->.
        specialize (Hmin m1 m2 eq_refl Hne).
        by rewrite <- app_assoc in Hmin.
Qed.

(** From a place of a line on, the second capture runs to the line
    feed. *)
Lemma re_lazy_to_line_feed (g1 acc u rest : jsstring) :
  Forall (λ c, dot c = true) u →
  re_lazy dot acc (u ++ LF :: rest)
    (λ g2 s4, re_lit [LF] s4 (λ rest, Some (g1, g2, rest)))
  = Some (g1, acc ++ u, rest).
Proof.
  intros Hu. revert acc.
  induction Hu as [|c u Hc Hu IH]; intros acc.
  - cbn [app re_lazy re_lit]. by rewrite N.eqb_refl, app_nil_r.
  - cbn [app re_lazy re_lit].
    destruct (N.eqb_spec LF c) as [<-|_]; [done|].
    by rewrite Hc, IH, <- app_assoc.
Qed.

Lemma filePattern_at_key s g1 g2 rest :
  filePattern_at s = Some (g1, g2, rest) → key_of_header g1.
Proof.
  unfold filePattern_at.
  intros (s1 & -> & H)%re_lit_Some.
  apply re_lazy_first in H as (mid & s2 & -> & Hmid & H & Hmin).
  pose proof H as (s3 & -> & H3)%re_lit_Some.
  apply re_lazy_Some in H3 as (h2 & s4 & -> & Hg2 & H4).
  apply re_lit_Some in H4 as (s5 & -> & H5).
  simpl in H5. injection H5 as <- <- <-.
  split; [done|].
  intros pre post [(m2 & -> & Hpost)|(m2 & -> & Hpost)]%app_eq_inv.
  - destruct m2 as [|c m2].
    + apply (f_equal length) in Hpost. rewrite !length_app in Hpost.
      simpl in Hpost. destruct post; [done | simpl in Hpost; lia].
    + exfalso. specialize (Hmin pre (c :: m2) eq_refl ltac:(done)).
      rewrite (app_assoc (c :: m2)), <- Hpost, <- app_assoc in Hmin.
      assert (Hdot : Forall (λ c, dot c = true) (post ++ h2)).
      { apply Forall_app. split; [|done].
        apply Forall_app in Hmid as [_ Hm2].
        assert (Hall : Forall (λ c, dot c = true) (lit " b/" ++ post)).
        { rewrite Hpost. apply Forall_app. split; [done|].
          repeat constructor. }
        by apply Forall_app in Hall as [_ ?]. }
      assert (Hk : ∃ r,
                 re_lit (lit " b/") (lit " b/" ++ post ++ h2 ++ [LF] ++ s5)
                   (λ s3, re_lazy dot [] s3
                      (λ g2 s4, re_lit [LF] s4
                         (λ rest, Some ([] ++ pre, g2, rest))))
                 = Some r).
      { eexists. apply re_lit_Some. eexists. split; [done|].
        rewrite (app_assoc post h2). change ([LF] ++ s5) with (LF :: s5).
        by apply re_lazy_to_line_feed. }
      destruct Hk as [r Hk]. by rewrite Hmin in Hk.
  - apply (f_equal length) in Hpost. rewrite !length_app in Hpost.
    simpl in Hpost. destruct post; [done | simpl in Hpost; lia].
Qed.

Lemma exec_key diffStr lastIndex m lastIndex' :
  exec diffStr lastIndex = (Some m, lastIndex') → key_of_header (m1 m).
Proof.
  unfold exec. case_bool_decide; [done|].
  destruct (re_search _ _ _) as [[i [[g1 g2] rest]]|] eqn:Hs; [|done].
  intros [= <- <-]. simpl.
  apply re_search_Some in Hs as (pre & s' & _ & _ & Hat).
  by eapply filePattern_at_key.
Qed.

Lemma collect_headers_keys fuel diffStr lastIndex acc hs :
  collect_headers fuel diffStr lastIndex acc = Some hs →
  Forall (λ h, key_of_header (fileName h)) acc →
  Forall (λ h, key_of_header (fileName h)) hs.
Proof.
  revert lastIndex acc.
  induction fuel as [|fuel IH]; intros lastIndex acc; simpl; [done|].
  destruct (exec diffStr lastIndex) as [[m|] lastIndex'] eqn:He.
  - intros Hhs Hacc. apply (IH _ _ Hhs).
    apply Forall_app. split; [done|]. constructor; [|constructor].
    simpl. by eapply exec_key.
  - by intros [= <-].
Qed.

(** What a write leaves in the object: the entries it had and the entry
    written, under pairwise distinct keys, none of them [__proto__]. *)
Lemma obj_replace_entries k v (o o' : jsobject) :
  obj_replace k v o = Some o' →
  o'.*1 = o.*1 ∧ ∀ e, e ∈ o' → e ∈ o ∨ e = (k, v).
Proof.
  revert o'. induction o as [|[k' v'] o IH]; intros o'; simpl; [done|].
  unfold key_eqb. case_bool_decide as Hk.
  - intros [= <-]. subst k'. split; [done|].
    intros e [->|He]%elem_of_cons; [by right | left; by right].
  - destruct (obj_replace k v o) as [o1|]; [|done]. simpl.
    intros [= <-]. destruct (IH o1 eq_refl) as [Hkeys Hin].
    split; [by rewrite !fmap_cons, Hkeys|].
    intros e [->|He]%elem_of_cons; [left; by left|].
    destruct (Hin e He) as [?|?]; [left; by right | by right].
Qed.

Lemma obj_set_entries k v (o : jsobject) :
  NoDup o.*1 → lit "__proto__" ∉ o.*1 →
  NoDup (obj_set k v o).*1 ∧ (lit "__proto__" ∉ (obj_set k v o).*1)
  ∧ ∀ e, e ∈ obj_set k v o → e ∈ o ∨ e = (k, v).
Proof.
  intros Hnd Hproto. unfold obj_set, key_eqb.
  case_bool_decide as Hk; [by split_and!; [| |left]|].
  destruct (obj_replace k v o) as [o'|] eqn:Hrep.
  - destruct (obj_replace_entries _ _ _ _ Hrep) as [Hkeys Hin].
    rewrite Hkeys. by split_and!.
  - assert (Hfresh : k ∉ o.*1).
    { intros Hin. clear Hnd Hproto.
      induction o as [|[k' v'] o IH]; [by apply elem_of_nil in Hin|].
      simpl in Hrep. unfold key_eqb in Hrep.
      case_bool_decide as Hkk; [done|].
      destruct (obj_replace k v o); [done|].
      apply elem_of_cons in Hin as [?|?]; [done | by apply IH]. }
    rewrite fmap_app. simpl. split_and!.
    + apply NoDup_app. split_and!; [done | | apply NoDup_singleton].
      intros x Hx ->%list_elem_of_singleton. done.
    + rewrite elem_of_app, list_elem_of_singleton. intros [?|?]; [done|].
      by apply Hk.
    + intros e [?|He]%elem_of_app; [by left|].
      apply list_elem_of_singleton in He as ->. by right.
Qed.

Lemma write_all_entries kvs (o : jsobject) :
  NoDup o.*1 → lit "__proto__" ∉ o.*1 →
  NoDup (write_all kvs o).*1 ∧ (lit "__proto__" ∉ (write_all kvs o).*1)
  ∧ ∀ e, e ∈ write_all kvs o → e ∈ o ∨ e ∈ kvs.
Proof.
  revert o. induction kvs as [|[k v] kvs IH]; intros o Hnd Hproto.
  - by split_and!; [| |left].
  - destruct (obj_set_entries k v o Hnd Hproto) as (Hnd1 & Hp1 & Hin1).
    destruct (IH _ Hnd1 Hp1) as (Hnd2 & Hp2 & Hin2).
    split_and!; [done | done |].
    intros e He. destruct (Hin2 e He) as [H1|H2]; [|right; by right].
    destruct (Hin1 e H1) as [?|He1]; [by left|].
    subst e. right; by left.
Qed.

(** The text written for a header is a piece of the input that starts
    with the header. *)
Lemma segments_of_chain diffStr lastIndex hs :
  header_chain diffStr lastIndex hs →
  ∀ k v, (k, v) ∈ segments diffStr hs →
    segment_of diffStr k v ∧ ∃ h, h ∈ hs ∧ fileName h = k.
Proof.
  induction 1 as [|li h hs Hle Hlen Hdrop Hm0 Hch IH]; intros k v; simpl.
  - by intros ?%elem_of_nil.
  - intros [[= -> ->]|Hin]%elem_of_cons.
    + split; [|exists h; split; [by left | done]].
      assert (Hnext : index h + length (m0 (match_ h))
                      ≤ first_index diffStr hs ≤ length diffStr).
      { split; [|by eapply header_chain_first].
        inversion Hch; subst; simpl; lia. }
      rewrite substring_take_drop by lia.
      exists (m2 (match_ h)),
        (take (first_index diffStr hs - index h - length (m0 (match_ h)))
           (drop (index h + length (m0 (match_ h))) diffStr)),
        (take (index h) diffStr), (drop (first_index diffStr hs) diffStr).
      assert (Hseg : take (first_index diffStr hs - index h)
                       (drop (index h) diffStr)
                     = m0 (match_ h)
                       ++ take (first_index diffStr hs - index h
                                - length (m0 (match_ h)))
                            (drop (index h + length (m0 (match_ h)))
                               diffStr)).
      { rewrite Hdrop at 1. rewrite take_app_ge by lia. done. }
      split.
      * rewrite Hseg, Hm0. by rewrite <- !app_assoc.
      * replace (first_index diffStr hs)
          with (index h + (first_index diffStr hs - index h)) at 2 by lia.
        by rewrite <- drop_drop, take_drop, take_drop.
    + destruct (IH k v Hin) as [Hseg (h' & Hh' & Hk)].
      split; [done|]. exists h'. split; [by right | done].
Qed.

Lemma obj_set_length k v (o : jsobject) :
  length (obj_set k v o) ≤ S (length o).
Proof.
  unfold obj_set. destruct (key_eqb _ _); [lia|].
  destruct (obj_replace k v o) as [o'|] eqn:Hrep.
  - destruct (obj_replace_entries _ _ _ _ Hrep) as [Hkeys _].
    apply (f_equal length) in Hkeys. rewrite !length_fmap in Hkeys. lia.
  - rewrite length_app. simpl. lia.
Qed.

Lemma write_all_length kvs (o : jsobject) :
  length (write_all kvs o) ≤ length o + length kvs.
Proof.
  revert o. induction kvs as [|[k v] kvs IH]; intros o; simpl; [lia|].
  etrans; [apply IH|]. pose proof (obj_set_length k v o). simpl. lia.
Qed.

Lemma segments_length diffStr hs : length (segments diffStr hs) = length hs.
Proof. induction hs as [|h hs IH]; simpl; [done | by rewrite IH]. Qed.

(** What [splitDiffByFiles] returns, read from the headers. *)
Lemma splitDiffByFiles_entries diffStr :
  ∃ hs fileDiffs,
    fileHeaders_of diffStr = Some hs
    ∧ splitDiffByFiles diffStr = Some fileDiffs
    ∧ fileDiffs = write_all (segments diffStr hs) []
    ∧ NoDup fileDiffs.*1 ∧ (lit "__proto__" ∉ fileDiffs.*1)
    ∧ length fileDiffs ≤ header_line_count diffStr
    ∧ ∀ k v, (k, v) ∈ fileDiffs →
        segment_of diffStr k v ∧ key_of_header k.
Proof.
  destruct (fileHeaders_of_total diffStr) as [hs Hhs].
  exists hs, (write_all (segments diffStr hs) []).
  destruct (write_all_entries (segments diffStr hs) [])
    as (Hnd & Hproto & Hin); [constructor | apply not_elem_of_nil |].
  split_and!; try done.
  - by apply splitDiffByFiles_write_all.
  - rewrite <- (fileHeaders_of_count _ _ Hhs), <- (segments_length diffStr hs).
    apply (write_all_length _ []).
  - intros k v [Hnil|Hseg]%Hin; [by apply elem_of_nil in Hnil|].
    destruct (segments_of_chain _ _ _ (fileHeaders_of_chain _ _ Hhs) _ _ Hseg)
      as [Hs (h & Hh & <-)].
    split; [done|].
    pose proof (collect_headers_keys _ _ _ _ _ Hhs (Forall_nil_2 _)) as Hkeys.
    rewrite Forall_forall in Hkeys. by apply Hkeys.
Qed.

(** X7.  Every value of the object [splitDiffByFiles] returns is a piece
    of the input that starts with a header [diff --git a/<key> b/] of its
    key and runs past the line feed of that header line; no value is
    empty. *)
Theorem entries_start_with_their_header (diffStr : jsstring) :
  ∃ fileDiffs,
    splitDiffByFiles diffStr = Some fileDiffs
    ∧ ∀ k v, (k, v) ∈ fileDiffs → segment_of diffStr k v ∧ v ≠ [].
Proof.
  destruct (splitDiffByFiles_entries diffStr)
    as (hs & o & _ & Hsplit & _ & _ & _ & _ & Hin).
  exists o. split; [done|]. intros k v Hkv.
  destruct (Hin k v Hkv) as [Hseg _]. split; [done|].
  by destruct Hseg as (g2 & rest & pre & post & -> & _).
Qed.

(** X8.  The keys of the object [splitDiffByFiles] returns are pairwise
    distinct, none is [__proto__], and there are at most as many as header
    lines; each key is the text between [a/] and the first [ b/] of a
    header line and holds no line terminator. *)
Theorem keys_end_at_first_b (diffStr : jsstring) :
  ∃ fileDiffs,
    splitDiffByFiles diffStr = Some fileDiffs
    ∧ NoDup fileDiffs.*1 ∧ (lit "__proto__" ∉ fileDiffs.*1)
    ∧ length (obj_entries fileDiffs) ≤ header_line_count diffStr
    ∧ Forall key_of_header fileDiffs.*1.
Proof.
  destruct (splitDiffByFiles_entries diffStr)
    as (hs & o & _ & Hsplit & _ & Hnd & Hproto & Hlen & Hin).
  exists o. rewrite obj_entries_length. split_and!; try done.
  apply Forall_forall. intros k ([k' v] & -> & Hkv)%list_elem_of_fmap.
  by destruct (Hin k' v Hkv).
Qed.

(** * [extractFileDiff] *)

Lemma obj_own_replace k k' v (o o' : jsobject) :
  obj_replace k' v o = Some o' →
  obj_own k o' = if key_eqb k k' then Some v else obj_own k o.
Proof.
  revert o'. induction o as [|[k1 v1] o IH]; intros o'; simpl; [done|].
  unfold key_eqb in *. destruct (decide (k' = k1)) as [->|H1].
  - rewrite (bool_decide_eq_true_2 (k1 = k1)) by done.
    intros [= <-]. simpl. unfold key_eqb. by case_bool_decide.
  - rewrite (bool_decide_eq_false_2 (k' = k1)) by done.
    destruct (obj_replace k' v o) as [o1|]; simpl; [|done].
    intros [= <-]. simpl. unfold key_eqb. rewrite (IH o1 eq_refl).
    repeat case_bool_decide; congruence.
Qed.

Lemma obj_own_app k k' v (o : jsobject) :
  obj_replace k' v o = None →
  obj_own k (o ++ [(k', v)])
  = if key_eqb k k' then Some v else obj_own k o.
Proof.
  induction o as [|[k1 v1] o IH]; simpl.
  - by destruct (key_eqb k k').
  - unfold key_eqb in *. destruct (decide (k' = k1)) as [->|H1].
    + by rewrite (bool_decide_eq_true_2 (k1 = k1)) by done.
    + rewrite (bool_decide_eq_false_2 (k' = k1)) by done.
      destruct (obj_replace k' v o); [done|]. intros _.
      rewrite IH by done. repeat case_bool_decide; congruence.
Qed.

(** A read after a write: the value written under the same key, the old
    value under another; a write under [__proto__] changes no read. *)
Lemma obj_own_set k k' v (o : jsobject) :
  obj_own k (obj_set k' v o)
  = if key_eqb k' (lit "__proto__") then obj_own k o
    else if key_eqb k k' then Some v else obj_own k o.
Proof.
  unfold obj_set. destruct (key_eqb k' (lit "__proto__")); [done|].
  destruct (obj_replace k' v o) as [o'|] eqn:Hrep.
  - by apply obj_own_replace.
  - by apply obj_own_app.
Qed.

Lemma write_all_app kvs1 kvs2 (o : jsobject) :
  write_all (kvs1 ++ kvs2) o = write_all kvs2 (write_all kvs1 o).
Proof. apply fold_left_app. Qed.

Lemma obj_own_write_all_other k kvs (o : jsobject) :
  k ∉ kvs.*1 ∨ k = lit "__proto__" →
  obj_own k (write_all kvs o) = obj_own k o.
Proof.
  revert o. induction kvs as [|[k' v] kvs IH]; intros o Hk; [done|].
  cbn [write_all fold_left]. fold (write_all kvs (obj_set k' v o)).
  rewrite IH, obj_own_set.
  - cbn [fst snd]. unfold key_eqb. repeat case_bool_decide; try done.
    subst k'. destruct Hk as [Hk| ->]; [|done].
    exfalso. apply Hk. rewrite fmap_cons. apply list_elem_of_here.
  - destruct Hk as [Hk|Hk]; [left | by right].
    rewrite fmap_cons in Hk. by apply not_elem_of_cons in Hk as [_ ?].
Qed.

Lemma obj_own_write_all_last k v pre post (o : jsobject) :
  k ≠ lit "__proto__" → k ∉ post.*1 →
  obj_own k (write_all (pre ++ (k, v) :: post) o) = Some v.
Proof.
  intros Hproto Hpost. rewrite write_all_app.
  cbn [write_all fold_left].
  fold (write_all post (obj_set k v (write_all pre o))).
  rewrite obj_own_write_all_other by (by left).
  rewrite obj_own_set. cbn [fst snd]. unfold key_eqb.
  by rewrite bool_decide_eq_false_2, bool_decide_eq_true_2.
Qed.

Lemma segments_middle diffStr pre h post :
  ∃ front,
    segments diffStr (pre ++ h :: post)
    = front
      ++ (fileName h, substring diffStr (index h) (first_index diffStr post))
      :: segments diffStr post.
Proof.
  induction pre as [|h' pre (front & IH)].
  - by exists [].
  - eexists (_ :: front). cbn [app segments]. by rewrite IH.
Qed.

Lemma segment_truthy diffStr k v : segment_of diffStr k v → truthy v = true.
Proof. by intros (g2 & rest & pre & post & -> & _). Qed.

(** X9.  For a name that [Object.prototype] does not have:
    [extractFileDiff] returns [null] when no header of the input has the
    name as its [a/] path; otherwise it returns the text that starts at
    the last header with that path and ends at the next header, or at the
    end of the input, and that text starts with that header. *)
Theorem extractFileDiff_last_header (diffStr name : jsstring)
    (hs : list FileHeader) :
  fileHeaders_of diffStr = Some hs →
  name ∉ object_prototype_names →
  (name ∉ fileName <$> hs → extractFileDiff diffStr name = Some Null)
  ∧ ∀ pre h post,
      hs = pre ++ h :: post → fileName h = name →
      name ∉ fileName <$> post →
      extractFileDiff diffStr name
      = Some (Text (substring diffStr (index h) (first_index diffStr post)))
      ∧ segment_of diffStr name
          (substring diffStr (index h) (first_index diffStr post)).
Proof.
  intros Hhs Hname. unfold extractFileDiff.
  rewrite (splitDiffByFiles_write_all _ _ Hhs). cbn [mbind option_bind].
  unfold get_or_null. split.
  - intros Hnone.
    rewrite obj_own_write_all_other by (left; by rewrite segments_keys).
    simpl. by rewrite bool_decide_eq_false_2.
  - intros pre h post -> <- Hpost.
    destruct (segments_middle diffStr pre h post) as (front & Hseg).
    assert (Hin : segment_of diffStr (fileName h)
              (substring diffStr (index h) (first_index diffStr post))).
    { apply (segments_of_chain _ _ _ (fileHeaders_of_chain _ _ Hhs)).
      rewrite Hseg. apply elem_of_app. right. apply list_elem_of_here. }
    rewrite Hseg, obj_own_write_all_last.
    + by rewrite (segment_truthy _ _ _ Hin).
    + intros E. apply Hname. rewrite E.
      unfold object_prototype_names.
      do 10 apply list_elem_of_further. apply list_elem_of_here.
    + by rewrite segments_keys.
Qed.

(** X10.  For a name that [Object.prototype] has, such as [constructor] or
    [toString]: when no header of the input has the name as its [a/]
    path, and for [__proto__] whatever the input, [extractFileDiff]
    returns the value inherited from [Object.prototype], which is neither
    [null] nor a string. *)
Theorem extractFileDiff_inherited (diffStr name : jsstring)
    (hs : list FileHeader) :
  fileHeaders_of diffStr = Some hs →
  name ∈ object_prototype_names →
  name ∉ fileName <$> hs ∨ name = lit "__proto__" →
  extractFileDiff diffStr name = Some (Inherited name).
Proof.
  intros Hhs Hname Hnone. unfold extractFileDiff.
  rewrite (splitDiffByFiles_write_all _ _ Hhs). cbn [mbind option_bind].
  unfold get_or_null.
  rewrite obj_own_write_all_other by (by rewrite segments_keys).
  simpl. by rewrite bool_decide_eq_true_2.
Qed.

Lemma extractFileDiff_last_header_witness :
  fileHeaders_of two_files = Some two_files_headers
  ∧ (lit "y" ∉ object_prototype_names)
  ∧ extractFileDiff two_files (lit "y")
    = Some (Text (lit "diff --git a/y b/z" ++ nl)).
Proof.
  assert (H1 : fileHeaders_of two_files = Some two_files_headers)
    by (vm_compute; reflexivity).
  assert (H2 : lit "y" ∉ object_prototype_names)
    by (apply (bool_decide_unpack _); vm_compute; exact I).
  split_and!; [exact H1 | exact H2 |].
  destruct (extractFileDiff_last_header two_files (lit "y")
              two_files_headers H1 H2) as [_ Hlast].
  destruct (Hlast (take 1 two_files_headers)
              {| index := 22; fileName := lit "y";
                 match_ := {| m_index := 22;
                              m0 := lit "diff --git a/y b/z" ++ nl;
                              m1 := lit "y"; m2 := lit "z" |} |}
              [] eq_refl eq_refl (not_elem_of_nil _)) as [E _].
  exact E.
Defined.

Lemma extractFileDiff_inherited_witness :
  fileHeaders_of two_files = Some two_files_headers
  ∧ lit "constructor" ∈ object_prototype_names
  ∧ (lit "constructor" ∉ fileName <$> two_files_headers
     ∨ lit "constructor" = lit "__proto__")
  ∧ extractFileDiff two_files (lit "constructor")
    = Some (Inherited (lit "constructor")).
Proof.
  assert (H1 : fileHeaders_of two_files = Some two_files_headers)
    by (vm_compute; reflexivity).
  assert (H2 : lit "constructor" ∈ object_prototype_names)
    by apply list_elem_of_here.
  assert (H3 : lit "constructor" ∉ fileName <$> two_files_headers
               ∨ lit "constructor" = lit "__proto__").
  { left. apply (bool_decide_unpack _). vm_compute. exact I. }
  split_and!; [exact H1 | exact H2 | exact H3 |].
  exact (extractFileDiff_inherited two_files (lit "constructor")
           two_files_headers H1 H2 H3).
Defined.

(** * [processDiffToGiteaFiles] *)

Lemma insert_by_index_elem e e' (l : jsobject) :
  e ∈ insert_by_index e' l → e = e' ∨ e ∈ l.
Proof.
  induction l as [|e1 l IH]; simpl.
  - intros ->%list_elem_of_singleton. by left.
  - destruct (N.leb _ _).
    + intros [->|H]%elem_of_cons; [by left | by right].
    + intros [->|H]%elem_of_cons.
      * right. apply list_elem_of_here.
      * destruct (IH H) as [->|?]; [by left|].
        right. by apply list_elem_of_further.
Qed.

Lemma obj_entries_elem e (o : jsobject) : e ∈ obj_entries o → e ∈ o.
Proof.
  unfold obj_entries. intros [H|H]%elem_of_app.
  - assert (Hs : ∀ l : jsobject, e ∈ sort_by_index l → e ∈ l).
    { induction l as [|e1 l IH]; simpl; [done|].
      intros [->|?]%insert_by_index_elem.
      - apply list_elem_of_here.
      - apply list_elem_of_further. by apply IH. }
    apply Hs in H. by apply list_elem_of_filter in H as [_ ?].
  - by apply list_elem_of_filter in H as [_ ?].
Qed.

Lemma includes_app pre s p :
  startsWith s p = true → includes (pre ++ s) p = true.
Proof.
  intros Hs. induction pre as [|c pre IH]; simpl.
  - destruct s; simpl; by rewrite Hs.
  - rewrite IH. apply orb_true_r.
Qed.

Lemma startsWith_app s p r :
  startsWith s p = true → startsWith (s ++ r) p = true.
Proof.
  rewrite !startsWith_spec. intros (x & ->). exists (x ++ r).
  by rewrite app_assoc.
Qed.

(** A line of the text is a piece of it: the line itself first, or a
    piece that starts later. *)
Lemma split_lines_aux_piece l cur s :
  l ∈ split_lines_aux cur s →
  (∃ b, cur ++ s = l ++ b) ∨ ∃ a b, s = a ++ l ++ b.
Proof.
  revert cur. induction s as [|c s IH]; intros cur; simpl.
  - intros ->%list_elem_of_singleton. left. by exists [].
  - destruct (N.eqb_spec c LF) as [->|Hc].
    + intros [->|H]%elem_of_cons.
      * left. by eexists.
      * right. destruct (IH _ H) as [(b & Hb)|(a & b & Hb)].
        -- exists [LF], b. by rewrite <- Hb.
        -- exists (LF :: a), b. by rewrite Hb.
    + intros H. destruct (IH _ H) as [(b & Hb)|(a & b & Hb)].
      * left. exists b. by rewrite <- Hb, <- app_assoc.
      * right. exists (c :: a), b. by rewrite Hb.
Qed.

(** A text that has a line starting with [p] includes [p]. *)
Lemma includes_line s l p :
  l ∈ split_lines s → startsWith l p = true → includes s p = true.
Proof.
  intros [(b & Hb)|(a & b & ->)]%split_lines_aux_piece Hl.
  - simpl in Hb. subst s. apply (includes_app []). by apply startsWith_app.
  - apply includes_app. by apply startsWith_app.
Qed.

Lemma to_gitea_file_Some k v :
  ∃ sm,
    summarizeDiff v = Some sm
    ∧ to_gitea_file (k, v)
      = Some {| filename := k;
                status := if includes v (lit "+++ /dev/null")
                          then lit "removed"
                          else if includes v (lit "--- /dev/null")
                               then lit "added" else lit "modified";
                additions := insertions sm;
                g_deletions := deletions sm;
                changes := (insertions sm + deletions sm)%Z;
                patch := v; raw_url := []; contents_url := [] |}.
Proof.
  destruct (summarizeDiff_bounds v) as (sm & Hsm & _).
  exists sm. split; [done|]. unfold to_gitea_file. by rewrite Hsm.
Qed.

Lemma mapM_to_gitea_file (es : jsobject) :
  ∃ files,
    mapM to_gitea_file es = Some files
    ∧ Forall2 (λ e f, to_gitea_file e = Some f) es files.
Proof.
  induction es as [|[k v] es (files & Hfs & Hall)].
  - by exists [].
  - destruct (to_gitea_file_Some k v) as (sm & _ & Hf).
    eexists (_ :: files). split.
    + cbn [mapM]. rewrite Hf, Hfs. done.
    + by constructor.
Qed.

Lemma insert_by_index_perm e (l : jsobject) : insert_by_index e l ≡ₚ e :: l.
Proof.
  induction l as [|e1 l IH]; simpl; [done|].
  destruct (N.leb _ _); [done|]. rewrite IH. apply Permutation_swap.
Qed.

Lemma sort_by_index_perm (l : jsobject) : sort_by_index l ≡ₚ l.
Proof.
  induction l as [|e l IH]; simpl; [done|].
  by rewrite insert_by_index_perm, IH.
Qed.

(** [Object.entries] lists every own property once. *)
Lemma obj_entries_perm (o : jsobject) : obj_entries o ≡ₚ o.
Proof.
  unfold obj_entries. rewrite sort_by_index_perm.
  induction o as [|e o IH]; [done|].
  rewrite !filter_cons. repeat case_decide; try done; simpl.
  - by rewrite IH.
  - rewrite <- Permutation_middle. by rewrite IH.
Qed.

(** X11.  [processDiffToGiteaFiles] returns, for every input, one file for
    each entry of [Object.entries(splitDiffByFiles(diffContent))], in that
    order, with the key as [filename] and the text as [patch]: the file
    names are pairwise distinct, there are at most as many files as header
    lines, and every [patch] is a piece of the input that starts with a
    header [diff --git a/<filename> b/]. *)
Theorem gitea_files_follow_entries (diffContent : jsstring) :
  ∃ fileDiffs files,
    splitDiffByFiles diffContent = Some fileDiffs
    ∧ processDiffToGiteaFiles diffContent = Some files
    ∧ filename <$> files = (obj_entries fileDiffs).*1
    ∧ patch <$> files = (obj_entries fileDiffs).*2
    ∧ NoDup (filename <$> files)
    ∧ length files ≤ header_line_count diffContent
    ∧ Forall (λ f, segment_of diffContent (filename f) (patch f)) files.
Proof.
  destruct (splitDiffByFiles_entries diffContent)
    as (hs & o & _ & Hsplit & _ & Hnd & _ & Hlen & Hin).
  destruct (mapM_to_gitea_file (obj_entries o)) as (files & Hfs & Hall).
  exists o, files. unfold processDiffToGiteaFiles. rewrite Hsplit.
  cbn [mbind option_bind].
  assert (Hshape : Forall2 (λ e f, filename f = e.1 ∧ patch f = e.2)
                     (obj_entries o) files).
  { eapply Forall2_impl; [exact Hall|]. intros [k v] f Hf.
    destruct (to_gitea_file_Some k v) as (sm & _ & E).
    rewrite E in Hf. injection Hf as <-. done. }
  assert (Hnames : filename <$> files = (obj_entries o).*1).
  { clear -Hshape. induction Hshape as [|e f es fs [H1 _] _ IH]; [done|].
    by rewrite !fmap_cons, H1, IH. }
  assert (Hpatches : patch <$> files = (obj_entries o).*2).
  { clear -Hshape. induction Hshape as [|e f es fs [_ H2] _ IH]; [done|].
    by rewrite !fmap_cons, H2, IH. }
  split_and!; try done.
  - rewrite Hnames, (obj_entries_perm o). done.
  - rewrite <- (Forall2_length _ _ _ Hshape), obj_entries_length. done.
  - clear -Hshape Hin.
    assert (Hsub : ∀ e, e ∈ obj_entries o → e ∈ o)
      by (intros e; apply obj_entries_elem).
    revert Hsub. induction Hshape as [|[k v] f es fs [H1 H2] _ IH];
      intros Hsub; constructor.
    + simpl in H1, H2. rewrite H1, H2.
      apply Hin, Hsub, list_elem_of_here.
    + apply IH. intros e He. by apply Hsub, list_elem_of_further.
Qed.

(** X12.  The [status] of a file [processDiffToGiteaFiles] returns is
    [removed], [added] or [modified], and its counts are those of
    [summarizeDiff] on its [patch], within the number of lines of the
    [patch] that start with [+] and with [-].  The status is no weaker
    than the flags of [parseDiff]: in the [patch] of a file with status
    [modified], [parseDiff] marks no file deleted or new, and in the
    [patch] of a file with status [added] it marks no file deleted. *)
Theorem gitea_status_covers_flags (diffContent : jsstring) :
  ∃ files,
    processDiffToGiteaFiles diffContent = Some files
    ∧ Forall (λ f,
        status f ∈ [lit "removed"; lit "added"; lit "modified"]
        ∧ changes f = (additions f + g_deletions f)%Z
        ∧ (0 ≤ additions f
           ≤ lines_starting (lit "+") (split_lines (patch f)))%Z
        ∧ (0 ≤ g_deletions f
           ≤ lines_starting (lit "-") (split_lines (patch f)))%Z
        ∧ ∃ ds,
            parseDiff (patch f) = Some ds
            ∧ (status f = lit "modified" →
               Forall (λ d, isDeleted d = false ∧ isNew d = false) ds)
            ∧ (status f = lit "added" →
               Forall (λ d, isDeleted d = false) ds)) files.
Proof.
  destruct (splitDiffByFiles_entries diffContent)
    as (hs & o & _ & Hsplit & _).
  destruct (mapM_to_gitea_file (obj_entries o)) as (files & Hfs & Hall).
  exists files. unfold processDiffToGiteaFiles. rewrite Hsplit.
  cbn [mbind option_bind]. split; [done|].
  clear Hfs Hsplit. induction Hall as [|[k v] f es fs Hf _ IH]; constructor;
    [|exact IH].
  destruct (to_gitea_file_Some k v) as (sm & Hsm & E).
  rewrite E in Hf. injection Hf as <-. cbn [status changes additions
    g_deletions patch].
  destruct (summarizeDiff_bounds v) as (sm' & Hsm' & Hi & Hd).
  rewrite Hsm in Hsm'. injection Hsm' as <-.
  destruct (parseDiff_flags v) as (ds & Hds & Hflags).
  split; [|split; [done|split; [done|split; [done|]]]].
  - destruct (includes v (lit "+++ /dev/null"));
      [|destruct (includes v (lit "--- /dev/null"))];
      apply (bool_decide_unpack _); vm_compute; exact I.
  - exists ds. split; [done|].
    assert (HD : includes v (lit "+++ /dev/null") = false →
                 Forall (λ d : FileDiff, isDeleted d = false) ds).
    { intros Hinc. eapply Forall_impl; [exact Hflags|].
      intros d [H1 _]. destruct (isDeleted d); [|done].
      destruct (H1 eq_refl) as (l & Hl & Hst).
      by rewrite (includes_line _ _ _ Hl Hst) in Hinc. }
    assert (HN : includes v (lit "--- /dev/null") = false →
                 Forall (λ d : FileDiff, isNew d = false) ds).
    { intros Hinc. eapply Forall_impl; [exact Hflags|].
      intros d [_ H2]. destruct (isNew d); [|done].
      destruct (H2 eq_refl) as (l & Hl & Hst).
      by rewrite (includes_line _ _ _ Hl Hst) in Hinc. }
    destruct (includes v (lit "+++ /dev/null")) eqn:E1;
      [|destruct (includes v (lit "--- /dev/null")) eqn:E2].
    + split; intros Hs; by vm_compute in Hs.
    + split; [intros Hs; by vm_compute in Hs | intros _; by apply HD].
    + split; [intros _ | intros Hs; by vm_compute in Hs].
      specialize (HD eq_refl). specialize (HN eq_refl).
      rewrite Forall_forall in HD, HN |- *. intros d Hd'. by split; [apply HD | apply HN].
Qed.

(** * Lines the parser passes over *)

Lemma split_lines_aux_app cur a b :
  split_lines_aux cur (a ++ LF :: b) = split_lines_aux cur a ++ split_lines b.
Proof.
  revert cur. induction a as [|c a IH]; intros cur; [done|].
  cbn [app split_lines_aux]. destruct (N.eqb c LF).
  - by rewrite IH.
  - apply IH.
Qed.

(** The lines of two texts joined by a line feed are the lines of the
    first followed by the lines of the second. *)
Lemma split_lines_app a b :
  split_lines (a ++ LF :: b) = split_lines a ++ split_lines b.
Proof. apply split_lines_aux_app. Qed.

Lemma startsWith_prefix_false line p q :
  startsWith line p = false → startsWith line (p ++ q) = false.
Proof.
  intros Hp. destruct (startsWith line (p ++ q)) eqn:Hpq; [|done].
  apply startsWith_spec in Hpq as (r & ->).
  rewrite <- app_assoc in Hp.
  assert (startsWith (p ++ q ++ r) p = true) as Ht
    by (apply startsWith_spec; by eexists).
  congruence.
Qed.

Lemma parse_line_passed_over st line :
  passed_over line → parse_line st line = Some st.
Proof.
  intros [_ Hp].
  apply Forall_cons in Hp as [Hd Hp]. apply Forall_cons in Hp as [Hh Hp].
  apply Forall_cons in Hp as [Hplus Hp]. apply Forall_cons in Hp as [Hminus Hp].
  apply Forall_cons in Hp as [Hsp _].
  unfold parse_line. rewrite Hd. destruct (currentDiff st) as [d|]; [|done].
  assert (H1 : startsWith line (lit "--- a/") = false)
    by exact (startsWith_prefix_false line (lit "-") (lit "-- a/") Hminus).
  assert (H2 : startsWith line (lit "+++ b/") = false)
    by exact (startsWith_prefix_false line (lit "+") (lit "++ b/") Hplus).
  assert (H3 : startsWith line (lit "+++ /dev/null") = false)
    by exact (startsWith_prefix_false line (lit "+") (lit "++ /dev/null")
                Hplus).
  assert (H4 : startsWith line (lit "--- /dev/null") = false)
    by exact (startsWith_prefix_false line (lit "-") (lit "-- /dev/null")
                Hminus).
  rewrite H1, H2, H3, H4, Hh.
  destruct (startsWith line (lit "index ") || startsWith line (lit "new file mode ")
            || startsWith line (lit "deleted file mode ")); [done|].
  destruct (currentChunk st) as [r|]; [|done].
  unfold content_line. rewrite Hplus, Hminus, Hsp.
  by destruct (key_eqb _ _).
Qed.

Lemma parse_lines_no_header ls :
  Forall (λ l, startsWith l (lit "diff --git ") = false) ls →
  parse_lines initial_state ls = Some initial_state.
Proof.
  induction 1 as [|l ls Hl _ IH]; [done|].
  cbn [parse_lines]. unfold parse_line at 1. rewrite Hl. simpl. exact IH.
Qed.

(** X13.  Text before the first file header line is passed over: when no
    line of [pre] starts with [diff --git ], [parseDiff] and
    [summarizeDiff] return for [pre], a line feed and [s] what they return
    for [s]. *)
Theorem text_before_first_header_ignored (pre s : jsstring) :
  no_file_header pre →
  parseDiff (pre ++ LF :: s) = parseDiff s
  ∧ summarizeDiff (pre ++ LF :: s) = summarizeDiff s.
Proof.
  intros Hpre.
  assert (E : parseDiff (pre ++ LF :: s) = parseDiff s).
  { unfold parseDiff. rewrite split_lines_app, parse_lines_app.
    by rewrite (parse_lines_no_header _ Hpre). }
  split; [done|]. unfold summarizeDiff. by rewrite E.
Qed.

Lemma text_before_first_header_ignored_witness :
  no_file_header mail_header
  ∧ parseDiff (mail_header ++ LF :: scenario1) = parseDiff scenario1
  ∧ summarizeDiff (mail_header ++ LF :: scenario1) = summarizeDiff scenario1.
Proof.
  assert (H : no_file_header mail_header).
  { unfold no_file_header. vm_compute split_lines. by repeat constructor. }
  split; [exact H|].
  exact (text_before_first_header_ignored mail_header scenario1 H).
Defined.

(** X14.  A line that starts with none of [diff --git ], [@@ ], [+], [-]
    and a space, such as an empty line, an [index] line or
    [\ No newline at end of file], changes nothing wherever it stands:
    [parseDiff] and [summarizeDiff] return the same with the line between
    two texts, after a text (so a line feed at the end of the input
    changes nothing) and before a text as without it. *)
Theorem passed_over_line_ignored (a line b : jsstring) :
  passed_over line →
  parseDiff (a ++ LF :: line ++ LF :: b) = parseDiff (a ++ LF :: b)
  ∧ parseDiff (a ++ LF :: line) = parseDiff a
  ∧ parseDiff (line ++ LF :: b) = parseDiff b
  ∧ summarizeDiff (a ++ LF :: line ++ LF :: b) = summarizeDiff (a ++ LF :: b)
  ∧ summarizeDiff (a ++ LF :: line) = summarizeDiff a
  ∧ summarizeDiff (line ++ LF :: b) = summarizeDiff b.
Proof.
  intros Hline.
  assert (Hl : split_lines line = [line]).
  { unfold split_lines. destruct Hline as [Hlf _].
    by rewrite split_lines_aux_no_line_feed. }
  assert (Hstep : ∀ st ls,
            parse_lines st (line :: ls) = parse_lines st ls).
  { intros st ls. cbn [parse_lines].
    by rewrite (parse_line_passed_over st line Hline). }
  assert (E1 : parseDiff (a ++ LF :: line ++ LF :: b)
               = parseDiff (a ++ LF :: b)).
  { unfold parseDiff. rewrite !split_lines_app, Hl, !parse_lines_app.
    destruct (parse_lines initial_state (split_lines a)) as [st|]; [|done].
    cbn [mbind option_bind app]. by rewrite Hstep. }
  assert (E2 : parseDiff (a ++ LF :: line) = parseDiff a).
  { unfold parseDiff. rewrite split_lines_app, Hl, parse_lines_app.
    destruct (parse_lines initial_state (split_lines a)) as [st|]; [|done].
    cbn [mbind option_bind]. by rewrite Hstep. }
  assert (E3 : parseDiff (line ++ LF :: b) = parseDiff b).
  { unfold parseDiff. rewrite split_lines_app, Hl.
    cbn [app]. by rewrite Hstep. }
  unfold summarizeDiff. by rewrite E1, E2, E3.
Qed.

Lemma passed_over_line_ignored_witness :
  passed_over (lit "\ No newline at end of file")
  ∧ parseDiff (scenario1 ++ LF :: lit "\ No newline at end of file"
               ++ LF :: two_files)
    = parseDiff (scenario1 ++ LF :: two_files).
Proof.
  assert (H : passed_over (lit "\ No newline at end of file")).
  { split; [|by repeat constructor].
    apply (bool_decide_unpack _). vm_compute. exact I. }
  split; [exact H|].
  exact (proj1 (passed_over_line_ignored scenario1
                  (lit "\ No newline at end of file") two_files H)).
Defined.

(** * The names of the files *)

Lemma substring_from_prefix line p :
  startsWith line p = true → p ++ substring_from line (length p) = line.
Proof.
  intros (r & ->)%startsWith_spec. unfold substring_from.
  by rewrite drop_app_length.
Qed.

Lemma line_step_names L st line st' :
  line_step st line st' → line ∈ L →
  Forall (names_from L) (all_files st) →
  Forall (names_from L) (all_files st').
Proof.
  destruct 1 as [Hh|Hh|d Hd H1|d Hd H1|d Hd H1|d Hd H1|d g Hd Hh H1 Hg
                 |d r c Hd Hr Hc H1|d r c Hd Hr Hc H1|d r c Hd Hr Hc H1];
    intros Hin Hall; try done;
    try (unfold all_files in *; simpl; rewrite Hd in *;
         apply Forall_app in Hall as [Hds [[HO HN] _]%Forall_cons];
         apply Forall_app; split; [done|]; constructor; [|constructor];
         split; simpl; try done; right;
         apply substring_from_prefix in H1; simpl in H1; by rewrite H1).
  rewrite all_files_header. apply Forall_app. split; [done|].
  constructor; [|constructor]. split; by left.
Qed.

(** X15.  The [oldFile] of every file [parseDiff] returns is empty or the
    text that follows [--- a/] in a line of the input, and its [newFile]
    is empty or the text that follows [+++ b/] in a line of the input. *)
Theorem names_follow_markers (diffStr : jsstring) :
  ∃ ds,
    parseDiff diffStr = Some ds
    ∧ Forall (names_from (split_lines diffStr)) ds.
Proof.
  destruct (parseDiff_reached diffStr) as (st & ds & Hst & Hfin & Hds).
  exists ds. split; [done|].
  assert (Hall : Forall (names_from (split_lines diffStr)) (all_files st)).
  { apply (parse_lines_inv _ (split_lines diffStr) _ _ _
             (λ st1 line st2 Hin Hstep, line_step_names _ _ _ _ Hstep Hin)
             (λ l Hl, Hl) Hst).
    constructor. }
  apply finish_files in Hfin. clear Hds. revert Hall Hfin.
  generalize (all_files st). intros fs Hall Hfin.
  induction Hfin as [|d d' fs ds' (HO & HN & _) _ IH]; [constructor|].
  apply Forall_cons in Hall as [[H1 H2] Hall].
  constructor; [|by apply IH].
  split; [rewrite HO | rewrite HN]; done.
Qed.
